(** * ecoforest_ecogeo: the register catalog, the range coalescer, the decoders
    and the poll cycle of [overrides/api.py], embedded and verified.

    Python values are modelled as follows.
    - [int] is [Z] (unbounded, as in Python).
    - [str] is [string]; a character is an [ascii] byte, so a name is taken
      as its byte string, [str.lower] acts on the ASCII letters, and [int]
      reads the ASCII digits and the ASCII white space.
    - [dict] is an insertion-ordered association list with unique keys
      ([dict_get], [dict_set], [dict_update]); iteration order is the list's.
    - a [float] obtained as [n / 10] from an integer [n] is the exact rational
      [n # 10].  Python rounds that quotient to the nearest double; rounding is
      monotone and the doubles nearest to distinct tenths are distinct in the
      range of register values, so the comparison [value == -999.9] holds
      exactly when the rational equals [-9999 # 10].  A quotient that rounds
      beyond the largest double is the [OverflowError] of the division.
    - an exception is a value of [exn]; a call that may raise returns
      [exn + A].
    The calls of [print] and of the logger have no part in what follows and
    are left out. *)

From Stdlib Require Import ZArith QArith Ascii String.
From stdpp Require Import base tactics option list list_numbers sorting strings.

#[local] Open Scope string_scope.
#[local] Open Scope list_scope.
#[local] Open Scope Z_scope.

(** ** Exceptions *)

Inductive exn : Type :=
| KeyError
| IndexError
| ValueError
| OverflowError
| RequestError (msg : string).

#[global] Instance exn_eq_dec : EqDecision exn.
Proof. solve_decision. Defined.

Definition raises {A} (r : exn + A) : Prop := ∃ e, r = inl e.
Definition returns {A} (r : exn + A) : Prop := ∃ a, r = inr a.

#[global] Instance exn_ret : MRet (sum exn) := λ A a, inr a.
#[global] Instance exn_bind : MBind (sum exn) := λ A B f m,
  match m with
  | inl e => inl e
  | inr a => f a
  end.

(** A loop whose body may raise: the first exception ends it. *)
Fixpoint for_each {A B} (f : B → A → exn + B) (b : B) (l : list A) : exn + B :=
  match l with
  | [] => inr b
  | a :: l' => b' ← f b a; for_each f b' l'
  end.

(** ** Dictionaries *)

Section dict.
Context {K V : Type} `{EqDecision K}.

(** [d[k]], [None] standing for the [KeyError]. *)
Fixpoint dict_get (k : K) (d : list (K * V)) : option V :=
  match d with
  | [] => None
  | (k', v) :: d' => if decide (k' = k) then Some v else dict_get k d'
  end.

(** [d[k] = v]: an existing key keeps its place, a new key goes last. *)
Fixpoint dict_set (k : K) (v : V) (d : list (K * V)) : list (K * V) :=
  match d with
  | [] => [(k, v)]
  | (k', v') :: d' =>
      if decide (k' = k) then (k', v) :: d' else (k', v') :: dict_set k v d'
  end.

(** [d.update(other)] *)
Definition dict_update (d other : list (K * V)) : list (K * V) :=
  foldl (λ acc kv, dict_set kv.1 kv.2 acc) d other.

Definition dict_keys (d : list (K * V)) : list K := d.*1.
Definition dict_values (d : list (K * V)) : list V := d.*2.
End dict.

(** ** Strings *)

Definition chars (s : string) : list ascii := list_ascii_of_string s.
Definition str (l : list ascii) : string := string_of_list_ascii l.

Definition code (c : ascii) : Z := Z.of_N (N_of_ascii c).

Definition between (lo hi x : Z) : bool := (lo <=? x) && (x <=? hi).

(** [str.lower] on the ASCII letters. *)
Definition lower_char (c : ascii) : ascii :=
  if between 65 90 (code c) then ascii_of_N (Z.to_N (code c + 32)) else c.

Definition lower (s : string) : string := str (lower_char <$> chars s).

(** [sub in s] *)
Fixpoint is_prefix (p s : list ascii) : bool :=
  match p, s with
  | [], _ => true
  | _ :: _, [] => false
  | a :: p', b :: s' => bool_decide (a = b) && is_prefix p' s'
  end.

Fixpoint contains_chars (p s : list ascii) : bool :=
  is_prefix p s ||
  match s with
  | [] => false
  | _ :: s' => contains_chars p s'
  end.

Definition contains (sub s : string) : bool := contains_chars (chars sub) (chars s).

(** ** [int(value, base)]

    [int] on a string of ASCII characters, as CPython reads it: white space
    around the number is skipped (tab, line feed, vertical tab, form feed,
    carriage return, space); one sign may come first; in base 16, 8 or 2
    the prefix [0x], [0o] or [0b] of either case may follow, and one
    underscore after it; then come the digits, with single underscores
    between them only.  The value of a digit character is 0..9 for
    ['0'..'9'] and 10..35 for the letters of either case, and a digit is
    accepted when it is below the base.  In a base that is not a power of
    two, more than 4300 digits (the default limit of the interpreter) are
    refused.  Every refusal is a [ValueError].  Characters outside ASCII are
    bytes above 127 here and are refused, whereas [int] also reads the
    decimal digits and the spaces of other scripts. *)

Definition digit_value (c : ascii) : option Z :=
  let n := code c in
  if between 48 57 n then Some (n - 48)
  else if between 65 90 n then Some (n - 55)
  else if between 97 122 n then Some (n - 87)
  else None.

Definition digit_in (base : Z) (c : ascii) : option Z :=
  d ← digit_value c; if d <? base then Some d else None.

(** The value of a string of digits, most significant digit first. *)
Fixpoint int_digits (base acc : Z) (s : list ascii) : option Z :=
  match s with
  | [] => Some acc
  | c :: s' => d ← digit_in base c; int_digits base (acc * base + d) s'
  end.

Definition is_space (c : ascii) : bool :=
  between 9 13 (code c) || (code c =? 32).

Fixpoint lstrip_space (s : list ascii) : list ascii :=
  match s with
  | [] => []
  | c :: s' => if is_space c then lstrip_space s' else s
  end.

(** An optional sign: whether it is a minus, and what follows it. *)
Definition strip_sign (s : list ascii) : bool * list ascii :=
  match s with
  | c :: s' =>
      if bool_decide (c = "+"%char) then (false, s')
      else if bool_decide (c = "-"%char) then (true, s')
      else (false, s)
  | [] => (false, [])
  end.

Definition is_prefix_letter (base : Z) (c : ascii) : bool :=
  ((base =? 16) && bool_decide (c = "x"%char ∨ c = "X"%char))
  || ((base =? 8) && bool_decide (c = "o"%char ∨ c = "O"%char))
  || ((base =? 2) && bool_decide (c = "b"%char ∨ c = "B"%char)).

(** The prefix of the base, and the one underscore allowed after it. *)
Definition strip_prefix (base : Z) (s : list ascii) : list ascii :=
  match s with
  | z :: c :: s' =>
      if bool_decide (z = "0"%char) && is_prefix_letter base c
      then match s' with
           | u :: s'' => if bool_decide (u = "_"%char) then s'' else s'
           | [] => s'
           end
      else s
  | _ => s
  end.

(** The run of digits and single underscores at the head of a string: its
    value, the number of its digits, and what follows the run.  [None]
    when two underscores meet or the run ends with one. *)
Fixpoint digit_run (base : Z) (after_underscore : bool) (acc : Z) (count : nat)
    (s : list ascii) : option (Z * nat * list ascii) :=
  match s with
  | [] => if after_underscore then None else Some (acc, count, [])
  | c :: s' =>
      if bool_decide (c = "_"%char)
      then if after_underscore then None else digit_run base true acc count s'
      else match digit_in base c with
           | Some d => digit_run base false (acc * base + d) (S count) s'
           | None => if after_underscore then None else Some (acc, count, s)
           end
  end.

Definition is_power_of_two (base : Z) : bool :=
  (base =? 2) || (base =? 4) || (base =? 8) || (base =? 16) || (base =? 32).

Definition MAX_STR_DIGITS : Z := 4300.

Definition int_of_str (base : Z) (s : string) : exn + Z :=
  let '(negative, s1) := strip_sign (lstrip_space (chars s)) in
  let s2 := strip_prefix base s1 in
  match s2 with
  | [] => inl ValueError
  | c :: _ =>
      if bool_decide (c = "_"%char) then inl ValueError
      else match digit_run base false 0 0 s2 with
           | None => inl ValueError
           | Some (v, count, rest) =>
               if (count =? 0)%nat then inl ValueError
               else if negb (forallb is_space rest) then inl ValueError
               else if negb (is_power_of_two base) && (MAX_STR_DIGITS <? Z.of_nat count)
                    then inl ValueError
               else inr (if negative then - v else v)
           end
  end.

(** ** The decoders of [EcoGeoApi] *)

(** [parse_ecoforest_int]:
    [result = int(value, 16); result if result <= 32768 else result - 65536] *)
Definition parse_ecoforest_int (value : string) : exn + Z :=
  match int_of_str 16 value with
  | inl e => inl e
  | inr result => inr (if result <=? 32768 then result else result - 65536)
  end.

(** [parse_ecoforest_bool]: [bool(int(value))] *)
Definition parse_ecoforest_bool (value : string) : exn + bool :=
  match int_of_str 10 value with
  | inl e => inl e
  | inr n => inr (negb (n =? 0))
  end.

(** The least magnitude that rounds beyond the largest double: half-way
    between it and [2 ^ 1024]. *)
Definition FLOAT_OVERFLOW : Z := 2 ^ 1024 - 2 ^ 970.

(** [n / 10] on an [int]: the quotient, or the [OverflowError] of a result
    too large for a float. *)
Definition true_divide_10 (n : Z) : exn + Q :=
  if 10 * FLOAT_OVERFLOW <=? Z.abs n then inl OverflowError else inr (n # 10).

Arguments FLOAT_OVERFLOW : simpl never.

(** [parse_ecoforest_float]: [parse_ecoforest_int(value) / 10] *)
Definition parse_ecoforest_float (value : string) : exn + Q :=
  match parse_ecoforest_int value with
  | inl e => inl e
  | inr n => true_divide_10 n
  end.

(** ** The register catalog *)

Inductive DataTypes : Type := Register | Coil.

#[global] Instance DataTypes_eq_dec : EqDecision DataTypes.
Proof. solve_decision. Defined.

(** [Operations.Get] *)
Definition Operations_Get (dt : DataTypes) : Z :=
  match dt with
  | Coil => 2001
  | Register => 2002
  end.

(** One value of a mapping: the dict with the keys ["data_type"], ["type"],
    ["address"] and ["entity_type"]. *)
Record definition : Type := Definition_ {
  data_type : DataTypes;
  type : string;
  address : Z;
  entity_type : string;
}.

#[global] Instance definition_eq_dec : EqDecision definition.
Proof. solve_decision. Defined.

Abbreviation mapping := (list (string * definition)).

(** An entry of the definition document: a JSON object whose ["name"] and
    ["address"] may be absent, in which case reading them is a [KeyError]. *)
Record item : Type := Item {
  item_name : option string;
  item_address : option Z;
}.

(** A variant's block; an absent list reads as [[]] ([block.get(.., [])]). *)
Record block : Type := Block {
  analog : list item;
  integer : list item;
  boolean : list item;
}.

(** [item[key]] *)
Definition field {A} (o : option A) : exn + A :=
  match o with
  | Some a => inr a
  | None => inl KeyError
  end.

Definition is_slug_char (c : ascii) : bool :=
  between 97 122 (code c) || between 48 57 (code c).

(** [re.sub(r"[^a-z0-9]+", "_", s)]: each maximal run of characters outside
    [a-z0-9] becomes one underscore; [in_run] tells that the run has begun. *)
Fixpoint sub_runs (in_run : bool) (s : list ascii) : list ascii :=
  match s with
  | [] => []
  | c :: s' =>
      if is_slug_char c then c :: sub_runs false s'
      else if in_run then sub_runs true s'
      else "_"%char :: sub_runs true s'
  end.

Fixpoint lstrip (c : ascii) (s : list ascii) : list ascii :=
  match s with
  | [] => []
  | x :: s' => if decide (x = c) then lstrip c s' else s
  end.

Definition strip (c : ascii) (s : list ascii) : list ascii :=
  reverse (lstrip c (reverse (lstrip c s))).

Definition _slugify (name : string) : string :=
  str (strip "_"%char (sub_runs false (chars (lower name)))).

Definition POWER_TERMS : list string :=
  ["power"; "capacity"; "PF"; "cop"; "consumption"; "production"].

Definition _infer_entity_type (name : string) : string :=
  let n := lower name in
  if contains "temperature" n then "temperature"
  else if contains "pressure" n then "pressure"
  else if existsb (λ term, contains (lower term) (lower n)) POWER_TERMS then "power"
  else "measurement".

(** The three loops of [_build_mapping], one body each. *)
Definition add_analog (m : mapping) (it : item) : exn + mapping :=
  name ← field (item_name it);
  let key := _slugify name in
  addr ← field (item_address it);
  mret (dict_set key (Definition_ Register "float" addr (_infer_entity_type name)) m).

Definition add_integer (m : mapping) (it : item) : exn + mapping :=
  name ← field (item_name it);
  let inferred_type := _infer_entity_type name in
  let ty := if bool_decide (inferred_type ∈ ["power"; "temperature"])
            then "float" else "int" in
  let key := _slugify name in
  addr ← field (item_address it);
  mret (dict_set key (Definition_ Register ty addr inferred_type) m).

Definition add_boolean (m : mapping) (it : item) : exn + mapping :=
  name ← field (item_name it);
  let key := _slugify name in
  addr ← field (item_address it);
  mret (dict_set key (Definition_ Coil "boolean" addr "measurement") m).

Definition _build_mapping (b : block) : exn + mapping :=
  m ← for_each add_analog [] (analog b);
  m ← for_each add_integer m (integer b);
  for_each add_boolean m (boolean b).

(** ** The range coalescer *)

Record request : Type := Request {
  req_address : Z;
  req_length : Z;
}.

#[global] Instance request_eq_dec : EqDecision request.
Proof. solve_decision. Defined.

(** The scan of [_build_requests] over [addresses[1:]], with the run that is
    open ([start], [prev]); the run is closed at a gap and at the end. *)
Fixpoint coalesce_from (start prev : Z) (rest : list Z) : list request :=
  match rest with
  | [] => [Request start (prev - start + 1)]
  | addr :: rest' =>
      if decide (addr ≠ prev + 1)
      then Request start (prev - start + 1) :: coalesce_from addr addr rest'
      else coalesce_from start addr rest'
  end.

(** The ranges of one address space from its sorted addresses. *)
Definition coalesce (addresses : list Z) : list request :=
  match addresses with
  | [] => []
  | a :: rest => coalesce_from a a rest
  end.

(** [sorted] on a list of integers. *)
Definition sorted (l : list Z) : list Z := merge_sort Z.le l.

(** A dict with the two keys [DataTypes.Register] and [DataTypes.Coil]. *)
Record by_type (A : Type) : Type := ByType {
  on_Register : A;
  on_Coil : A;
}.
Arguments ByType {A} _ _.
Arguments on_Register {A} _.
Arguments on_Coil {A} _.

Definition at_type {A} (t : by_type A) (dt : DataTypes) : A :=
  match dt with
  | Register => on_Register t
  | Coil => on_Coil t
  end.

Definition set_type {A} (t : by_type A) (dt : DataTypes) (a : A) : by_type A :=
  match dt with
  | Register => ByType a (on_Coil t)
  | Coil => ByType (on_Register t) a
  end.

Abbreviation requests := (by_type (list request)).

Definition addresses_of (m : mapping) (dt : DataTypes) : list Z :=
  address <$> filter (λ d, data_type d = dt) (dict_values m).

Definition _build_requests (m : mapping) : requests :=
  ByType (coalesce (sorted (addresses_of m Register)))
         (coalesce (sorted (addresses_of m Coil))).

(** ** The API session *)

Definition MODEL_ADDRESS : Z := 5323.
Definition MODEL_LENGTH : Z := 6.
Definition HP_MODELS : list string := ["EATM00"].

(** [["--"] + [*string.digits] + [*string.ascii_uppercase]] *)
Definition model_dictionary : list string :=
  ["--"; "0"; "1"; "2"; "3"; "4"; "5"; "6"; "7"; "8"; "9";
   "A"; "B"; "C"; "D"; "E"; "F"; "G"; "H"; "I"; "J"; "K"; "L"; "M";
   "N"; "O"; "P"; "Q"; "R"; "S"; "T"; "U"; "V"; "W"; "X"; "Y"; "Z"].

(** [l[i]] on a Python list: a negative index counts from the end. *)
Definition list_index {A} (l : list A) (i : Z) : exn + A :=
  let j := if i <? 0 then i + Z.of_nat (length l) else i in
  if j <? 0 then inl IndexError
  else match l !! Z.to_nat j with
       | Some a => inr a
       | None => inl IndexError
       end.

(** What a session does to the outside, in order.  A [Read] is one call of
    [_request] made by [_load_data]; its [site] tells which statement of
    [get] issued it. *)
Inductive site : Type := ModelRead | RangeRead.

Inductive event : Type :=
| Read (from : site) (op_type address length : Z)
| Sleep (seconds : Z).

#[global] Instance site_eq_dec : EqDecision site.
Proof. solve_decision. Defined.
#[global] Instance event_eq_dec : EqDecision event.
Proof. solve_decision. Defined.

(** The heat pump behind [_request] (inherited from [EcoforestApi], which
    posts the form and hands the body to [_parse]): the answer to the n-th
    call of the session, a list of values or an exception. *)
Definition transport : Type := nat → Z → Z → Z → exn + list string.

(** An [EcoGeoApi] object: its three attributes, its heat pump, and what it
    has done so far. *)
Record EcoGeoApi : Type := Api {
  _MAPPING : mapping;
  _REQUESTS : requests;
  _model_name : option string;
  host : transport;
  calls : nat;
  trace : list event;
}.

(** The object of the call and the module-level binding [MAPPING]. *)
Record world : Type := World {
  self : EcoGeoApi;
  MAPPING : mapping;
}.

(** A coroutine of the session: it may raise, and what it did before
    raising stays done. *)
Definition io (A : Type) : Type := world → (exn + A) * world.

#[global] Instance io_ret : MRet io := λ A a w, (inr a, w).
#[global] Instance io_bind : MBind io := λ A B f m w,
  match m w with
  | (inl e, w') => (inl e, w')
  | (inr a, w') => f a w'
  end.

Definition raise {A} (e : exn) : io A := λ w, (inl e, w).
Definition lift {A} (r : exn + A) : io A := λ w, (r, w).
Definition get_self : io EcoGeoApi := λ w, (inr (self w), w).
Definition modify_self (f : EcoGeoApi → EcoGeoApi) : io unit :=
  λ w, (inr (), World (f (self w)) (MAPPING w)).
Definition set_global_MAPPING (m : mapping) : io unit :=
  λ w, (inr (), World (self w) m).

(** [try: body except Exception as e: handler(e)] *)
Definition try_except {A} (body : io A) (handler : exn → io A) : io A := λ w,
  match body w with
  | (inl e, w') => handler e w'
  | r => r
  end.

Fixpoint for_io {A B} (f : B → A → io B) (b : B) (l : list A) : io B :=
  match l with
  | [] => mret b
  | a :: l' => b' ← f b a; for_io f b' l'
  end.

Definition with_io (s : EcoGeoApi) (c : nat) (t : list event) : EcoGeoApi :=
  Api (_MAPPING s) (_REQUESTS s) (_model_name s) (host s) c t.
Definition with_model_name (n : string) (s : EcoGeoApi) : EcoGeoApi :=
  Api (_MAPPING s) (_REQUESTS s) (Some n) (host s) (calls s) (trace s).
Definition with_catalog (m : mapping) (r : requests) (s : EcoGeoApi) : EcoGeoApi :=
  Api m r (_model_name s) (host s) (calls s) (trace s).

Definition _request (from : site) (op_type address length : Z) : io (list string) :=
  λ w,
    let s := self w in
    (host s (calls s) op_type address length,
     World (with_io s (S (calls s)) (trace s ++ [Read from op_type address length]))
           (MAPPING w)).

(** [asyncio.sleep] *)
Definition sleep (seconds : Z) : io unit :=
  modify_self (λ s, with_io s (calls s) (trace s ++ [Sleep seconds])).

(** The loop of [_load_data]: [result[i] = response[index]; index += 1]. *)
Fixpoint fill (result : list (Z * string)) (range : list Z) (index : nat)
    (response : list string) : exn + list (Z * string) :=
  match range with
  | [] => inr result
  | i :: range' =>
      match response !! index with
      | Some v => fill (dict_set i v result) range' (S index) response
      | None => inl IndexError
      end
  end.

Definition _load_data (from : site) (address length op_type : Z)
    : io (list (Z * string)) :=
  response ← _request from op_type address length;
  lift (fill [] (seqZ address length) 0 response).

(** The values of a snapshot. *)
Inductive value : Type :=
| VInt (n : Z)
| VFloat (q : Q)
| VBool (b : bool)
| VNone.

(** [value == -999.9]: an [int] or a [bool] never equals it. *)
Definition is_sentinel (v : value) : bool :=
  match v with
  | VFloat q => Qeq_bool q (-9999 # 10)
  | _ => false
  end.

Abbreviation raw_table := (by_type (list (Z * string))).
Abbreviation device_info := (list (string * value)).

(** The body of the decoding loop of [get] for one item of the mapping. *)
Definition decode_item (state : raw_table) (info : device_info)
    (entry : string * definition) : exn + device_info :=
  let '(name, d) := entry in
  match dict_get (address d) (at_type state (data_type d)) with
  | None => inr info
  | Some raw =>
      let finish (v : value) : exn + device_info :=
        let v := if String.eqb (entity_type d) "temperature" && is_sentinel v
                 then VNone else v in
        inr (dict_set name v info) in
      if String.eqb (type d) "int" then
        n ← parse_ecoforest_int raw; finish (VInt n)
      else if String.eqb (type d) "float" then
        q ← parse_ecoforest_float raw; finish (VFloat q)
      else if String.eqb (type d) "boolean" then
        b ← parse_ecoforest_bool raw; finish (VBool b)
      else inr info
  end.

Definition decode (m : mapping) (state : raw_table) : exn + device_info :=
  for_each (decode_item state) [] m.

(** The model name from the values of the model read. *)
Definition decode_model (values : list string) : exn + string :=
  symbols ← for_each (λ acc x,
               i ← parse_ecoforest_int x;
               sym ← list_index model_dictionary i;
               mret (acc ++ [sym])) [] values;
  mret (String.concat "" symbols).

Section api.
(** The two catalogs that loading the module builds with [_build_mapping]
    from [modbus_info.json], a file outside these sources. *)
Variables _DOMESTIC_MAPPING _HP_MAPPING : mapping.

Definition _DOMESTIC_REQUESTS : requests := _build_requests _DOMESTIC_MAPPING.
Definition _HP_REQUESTS : requests := _build_requests _HP_MAPPING.

(** [EcoGeoApi.__init__], under the current binding of [MAPPING]. *)
Definition EcoGeoApi_init (h : transport) (global_MAPPING : mapping) : EcoGeoApi :=
  Api global_MAPPING _DOMESTIC_REQUESTS None h 0 [].

(** The branch [if self._model_name is None] of [get]. *)
Definition resolve_model : io unit :=
  model_data ← _load_data ModelRead MODEL_ADDRESS MODEL_LENGTH (Operations_Get Register);
  name ← lift (decode_model (dict_values model_data));
  modify_self (with_model_name name);;
  (if bool_decide (name ∈ HP_MODELS)
   then modify_self (with_catalog _HP_MAPPING _HP_REQUESTS)
   else modify_self (with_catalog _DOMESTIC_MAPPING _DOMESTIC_REQUESTS));;
  s ← get_self;
  set_global_MAPPING (_MAPPING s).

(** One turn of [for i in range(3)]: [Some] is the [break]. *)
Definition attempt (dt : DataTypes) (r : request) (state : raw_table) (i : Z)
    : io (option raw_table) :=
  try_except
    (data ← _load_data RangeRead (req_address r) (req_length r) (Operations_Get dt);
     mret (Some (set_type state dt (dict_update (at_type state dt) data))))
    (λ e, if i <? 4 then sleep (2 ^ i);; mret None else raise e).

Fixpoint retry (dt : DataTypes) (r : request) (state : raw_table) (range : list Z)
    : io raw_table :=
  match range with
  | [] => mret state
  | i :: range' =>
      o ← attempt dt r state i;
      match o with
      | Some state' => mret state'
      | None => retry dt r state range'
      end
  end.

(** The two nested loops over the address spaces and their requests. *)
Definition read_ranges : io raw_table :=
  for_io (λ state dt,
            s ← get_self;
            for_io (λ state r, retry dt r state (seqZ 0 3))
                   state (at_type (_REQUESTS s) dt))
         (ByType [] []) [Coil; Register].

(** The part of [get] after the model has been looked at: the reads and
    the decoding; the result is the pair given to [EcoGeoDevice.build]. *)
Definition read_and_decode : io (option string * device_info) :=
  state ← read_ranges;
  s ← get_self;
  info ← lift (decode (_MAPPING s) state);
  mret (_model_name s, info).

(** [get] *)
Definition get : io (option string * device_info) :=
  s ← get_self;
  match _model_name s with
  | None => resolve_model
  | Some _ => mret ()
  end;;
  read_and_decode.

(** [n] polls of one session, one after the other, whatever they return. *)
Fixpoint get_times (n : nat) (w : world) : world :=
  match n with
  | O => w
  | S n' => get_times n' (get w).2
  end.
End api.

(** ** A process with several sessions

    The module-level binding [MAPPING] and the [EcoGeoApi] objects made so
    far, each with its own heat pump. *)
Record process : Type := Process {
  module_MAPPING : mapping;
  sessions : list EcoGeoApi;
}.

Section process.
Variables _DOMESTIC_MAPPING _HP_MAPPING : mapping.

(** The module just loaded: [MAPPING = _DOMESTIC_MAPPING], no session. *)
Definition loaded : process := Process _DOMESTIC_MAPPING [].

(** [EcoGeoApi(host, user, password)] *)
Definition construct (h : transport) (p : process) : process :=
  Process (module_MAPPING p)
          (sessions p ++ [EcoGeoApi_init _DOMESTIC_MAPPING h (module_MAPPING p)]).

(** [await api.get()] on the session at index [i]. *)
Definition poll (i : nat) (p : process)
    : option (exn + option string * device_info) * process :=
  match sessions p !! i with
  | None => (None, p)
  | Some s =>
      let r := get _DOMESTIC_MAPPING _HP_MAPPING (World s (module_MAPPING p)) in
      (Some r.1, Process (MAPPING r.2) (<[i := self r.2]> (sessions p)))
  end.

Fixpoint polls (i : nat) (n : nat) (p : process) : process :=
  match n with
  | O => p
  | S n' => polls i n' (poll i p).2
  end.

(** What the process does, one operation after the other: a session is
    constructed for a heat pump, or the session at an index is polled. *)
Inductive operation : Type :=
| Construct (h : transport)
| Poll (i : nat).

Definition step (p : process) (o : operation) : process :=
  match o with
  | Construct h => construct h p
  | Poll i => (poll i p).2
  end.

Definition run (ops : list operation) (p : process) : process := foldl step p ops.

(** The model name that the poll of the session at [i] resolves: the
    session has none before the poll and this one after it. *)
Definition newly_resolved (i : nat) (p : process) : option string :=
  match sessions p !! i with
  | Some s =>
      match _model_name s with
      | None => s' ← sessions (poll i p).2 !! i; _model_name s'
      | Some _ => None
      end
  | None => None
  end.

Definition resolution (o : operation) (p : process) : option string :=
  match o with
  | Construct _ => None
  | Poll i => newly_resolved i p
  end.

(** The model names resolved in the course of the operations, in order. *)
Fixpoint resolutions (ops : list operation) (p : process) : list string :=
  match ops with
  | [] => []
  | o :: ops' => option_list (resolution o p) ++ resolutions ops' (step p o)
  end.

(** The mapping that a resolved model name selects. *)
Definition selected_mapping (name : string) : mapping :=
  if bool_decide (name ∈ HP_MODELS) then _HP_MAPPING else _DOMESTIC_MAPPING.
End process.

(** The reads of the model range in a trace. *)
Definition is_model_read (e : event) : bool :=
  match e with
  | Read ModelRead _ _ _ => true
  | _ => false
  end.

Definition model_reads (t : list event) : nat :=
  length (filter (λ e, is_model_read e = true) t).

(** The symbol that [model_dictionary[i]] gives for an index that Python
    accepts: the end of the list is reached by the negative indices. *)
Definition symbol (i : Z) : string :=
  default "" (model_dictionary !! Z.to_nat (i `mod` 37)).

(** ** Specification-side definitions *)

(** The unsigned base-16 reading of a string, written positionally: the
    digit at distance [k] from the end weighs [16 ^ k]. *)
Fixpoint positional (base : Z) (ds : list Z) : Z :=
  match ds with
  | [] => 0
  | d :: ds' => d * base ^ Z.of_nat (length ds') + positional base ds'
  end.

Definition is_hex_digit (c : ascii) : bool :=
  between 48 57 (code c) || between 65 70 (code c) || between 97 102 (code c).

(** A register string: one hexadecimal digit or more. *)
Definition is_hex_string (s : string) : bool :=
  match chars s with
  | [] => false
  | cs => forallb is_hex_digit cs
  end.

Definition hex_value (s : string) : Z :=
  positional 16 ((λ c, default 0 (digit_value c)) <$> chars s).

(** The two-entry catalog of the end-to-end example: a boolean coil at 100
    and a float temperature register at 200. *)
Definition two_entry_catalog : mapping :=
  [("field_a", Definition_ Coil "boolean" 100 "measurement");
   ("field_b", Definition_ Register "float" 200 "temperature")].

(** The raw table [{Coil: {100: "1"}, Register: {200: raw}}]. *)
Definition two_entry_table (raw : string) : raw_table :=
  ByType [(200, raw)] [(100, "1")].

(** A range covers the addresses from its start, as many as its length. *)
Definition covers (r : request) (a : Z) : Prop :=
  req_address r ≤ a < req_address r + req_length r.

(** [r1] ends before [r2] begins, with an address in between left out. *)
Definition apart (r1 r2 : request) : Prop :=
  req_address r1 + req_length r1 < req_address r2.

(** The catalog entry that the spec assigns to a definition of each kind:
    analog is a float register; integer is a register, float when its
    category is power or temperature and int otherwise; boolean is a coil of
    category measurement. *)
Definition analog_entry (name : string) (addr : Z) : string * definition :=
  (_slugify name, Definition_ Register "float" addr (_infer_entity_type name)).

Definition integer_entry (name : string) (addr : Z) : string * definition :=
  let category := _infer_entity_type name in
  (_slugify name,
   Definition_ Register
     (if bool_decide (category = "power" ∨ category = "temperature")
      then "float" else "int")
     addr category).

Definition boolean_entry (name : string) (addr : Z) : string * definition :=
  (_slugify name, Definition_ Coil "boolean" addr "measurement").

Definition item_entry (mk : string → Z → string * definition) (it : item)
    : option (string * definition) :=
  name ← item_name it; addr ← item_address it; Some (mk name addr).

(** An item that has both its name and its address. *)
Definition complete (it : item) : bool :=
  bool_decide (is_Some (item_name it)) && bool_decide (is_Some (item_address it)).

(** The entries of a block in the order in which they are processed. *)
Definition block_entries (b : block) : list (string * definition) :=
  omap (item_entry analog_entry) (analog b)
  ++ omap (item_entry integer_entry) (integer b)
  ++ omap (item_entry boolean_entry) (boolean b).

(** A block with two analog definitions whose names have the same slug. *)
Definition colliding_block : block :=
  Block [Item (Some "Outdoor Temp") (Some 5); Item (Some "outdoor-temp") (Some 9)]
        [] [].

(** ** Heat pumps and catalogs of the examples *)

(** A domestic and an HP catalog that differ. *)
Definition domestic_catalog : mapping := two_entry_catalog.
Definition hp_catalog : mapping :=
  [("field_c", Definition_ Register "int" 300 "measurement")].

(** A heat pump of model "EATM00": the model read gives the indices
    15, 11, 30, 23, 1, 1 and every other read gives zeros. *)
Definition hp_host : transport := λ _ op_type address length,
  if (op_type =? 2002) && (address =? 5323)
  then inr ["000F"; "000B"; "001E"; "0017"; "0001"; "0001"]
  else inr (replicate (Z.to_nat length) "0").

(** A heat pump whose index registers all hold "FFFF", that is -1. *)
Definition ffff_host : transport := λ _ op_type address length,
  if (op_type =? 2002) && (address =? 5323)
  then inr (replicate 6 "FFFF")
  else inr (replicate (Z.to_nat length) "0").

(** A heat pump that fails every request. *)
Definition busy_host : transport := λ _ _ _ _, inl (RequestError "busy").

(** A heat pump that answers the model read ("000000") and the coil reads,
    and fails every read of another register range. *)
Definition register_busy_host : transport := λ _ op_type address length,
  if (op_type =? 2002) && (address =? 5323) then inr (replicate 6 "0001")
  else if op_type =? 2001 then inr (replicate (Z.to_nat length) "1")
  else inl (RequestError "busy").

(** ** Relations between the worlds before and after a coroutine *)

(** [w'] is [w] after some requests and sleeps whose events satisfy [P]:
    nothing but the call count and the trace of the session has changed. *)
Definition io_step (P : event → Prop) (w w' : world) : Prop :=
  ∃ c t, w' = World (with_io (self w) c (trace (self w) ++ t)) (MAPPING w) ∧
         Forall P t.

Definition steps (P : event → Prop) {A} (m : io A) : Prop :=
  ∀ w, io_step P w (m w).2.

Definition never_raises {A} (m : io A) : Prop := ∀ w, returns (m w).1.

(** An event that is not a read of the model range. *)
Definition quiet (e : event) : Prop := is_model_read e = false.

(** The world once the model range has been requested. *)
Definition after_model_read (w : world) : world :=
  World (with_io (self w) (S (calls (self w)))
           (trace (self w)
            ++ [Read ModelRead (Operations_Get Register) MODEL_ADDRESS MODEL_LENGTH]))
        (MAPPING w).

(** The catalog that a model name selects, and the world once a session
    has taken it. *)
Definition selected (D H : mapping) (name : string) : mapping * requests :=
  if bool_decide (name ∈ HP_MODELS)
  then (H, _HP_REQUESTS H)
  else (D, _DOMESTIC_REQUESTS D).

Definition resolved (D H : mapping) (name : string) (w : world) : world :=
  World (with_catalog (selected D H name).1 (selected D H name).2
           (with_model_name name (self w)))
        (selected D H name).1.

(** The model name that the answer to the model read yields. *)
Definition detect (w : world) : exn + string :=
  response ← host (self w) (calls (self w)) (Operations_Get Register)
               MODEL_ADDRESS MODEL_LENGTH;
  model_data ← fill [] (seqZ MODEL_ADDRESS MODEL_LENGTH) 0 response;
  decode_model (dict_values model_data).

(** ** [_parse] *)

Definition newline : ascii := "010"%char.

(** [s.split(sep)] for a separator of one character: the pieces between
    the occurrences of [sep], the empty ones among them. *)
Fixpoint split_chars (sep : ascii) (s : list ascii) : list (list ascii) :=
  match s with
  | [] => [[]]
  | c :: s' =>
      if decide (c = sep) then [] :: split_chars sep s'
      else match split_chars sep s' with
           | piece :: pieces => (c :: piece) :: pieces
           | [] => [[c]]
           end
  end.

Definition split (sep : ascii) (s : string) : list string :=
  str <$> split_chars sep (chars s).

(** The names that the first line of a good response may carry. *)
Definition GEO_ERRORS : list string :=
  ["error_geo_get_reg"; "error_geo_get_bit"; "error_geo_set_reg";
   "error_geo_set_bit"].

(** [_parse]: the first line is split at ["="] into exactly two parts
    ([a, b = ...], a [ValueError] otherwise); the plain [Exception] of a bad
    response is a [RequestError] with its message; the values are the second
    line split at ["&"], without its first two pieces. *)
Definition _parse (response : string) : exn + list string :=
  let lines := split newline response in
  line0 ← list_index lines 0;
  match split "="%char line0 with
  | [a; b] =>
      if negb (bool_decide (a ∈ GEO_ERRORS)) || negb (String.eqb b "0")
      then inl (RequestError ("bad response: " +:+ response))
      else line1 ← list_index lines 1; mret (drop 2 (split "&"%char line1))
  | _ => inl ValueError
  end.

(** What follows the second line of a response: nothing, or a line break
    and anything. *)
Definition rest_of_response (more : option string) : string :=
  match more with
  | None => ""
  | Some r => String newline r
  end.

(** ** The shape of a slug *)

(** A character that a slug may hold. *)
Definition slug_text_char (c : ascii) : Prop :=
  is_slug_char c = true ∨ c = "_"%char.

(** No underscore is followed by another one. *)
Fixpoint no_double (l : list ascii) : Prop :=
  match l with
  | [] => True
  | c :: t => (c = "_"%char → head t ≠ Some "_"%char) ∧ no_double t
  end.

(** ** Well-formed catalog entries *)

Definition CATEGORIES : list string :=
  ["temperature"; "pressure"; "power"; "measurement"].

(** What the three loops of [_build_mapping] can store under a key: a
    boolean coil of category measurement, a float register, or an int
    register whose category is neither temperature nor power. *)
Definition built_entry (kd : string * definition) : Prop :=
  Forall slug_text_char (chars kd.1) ∧
  entity_type kd.2 ∈ CATEGORIES ∧
  match data_type kd.2 with
  | Coil => type kd.2 = "boolean" ∧ entity_type kd.2 = "measurement"
  | Register =>
      type kd.2 = "float" ∨
      (type kd.2 = "int" ∧ entity_type kd.2 ∈ ["pressure"; "measurement"])
  end.

(** ** The attempts of a range read *)

(** What [_load_data] gets for a range at the [j]-th request that the
    session makes from the world [w] on. *)
Definition answer (w : world) (j : nat) (dt : DataTypes) (r : request)
    : exn + list (Z * string) :=
  response ← host (self w) (calls (self w) + j)%nat (Operations_Get dt)
               (req_address r) (req_length r);
  fill [] (seqZ (req_address r) (req_length r)) 0 response.

(** The world [w] after [n] more requests that left the events [t]. *)
Definition later (w : world) (n : nat) (t : list event) : world :=
  World (with_io (self w) (calls (self w) + n)%nat (trace (self w) ++ t)) (MAPPING w).

(** ** The addresses of a list of requests *)

(** The addresses that the requests ask for, in order: those of
    [range(address, address + length)] for each request in turn. *)
Definition expand (rs : list request) : list Z :=
  concat ((λ r, seqZ (req_address r) (req_length r)) <$> rs).

(** A coil string: one decimal digit or more. *)
Definition is_decimal_string (s : string) : bool :=
  match chars s with
  | [] => false
  | cs => forallb (λ c, between 48 57 (code c)) cs
  end.

(** ** The loops of [read_ranges], named *)

(** The loop over the requests of one address space. *)
Definition range_loop (dt : DataTypes) (state : raw_table) (l : list request)
    : io raw_table :=
  for_io (λ state r, retry dt r state (seqZ 0 3)) state l.

(** One turn of the loop over the address spaces. *)
Definition space_loop (state : raw_table) (dt : DataTypes) : io raw_table :=
  s ← get_self; range_loop dt state (at_type (_REQUESTS s) dt).

(** The event of the request for a range. *)
Definition read_event (dt : DataTypes) (r : request) : event :=
  Read RangeRead (Operations_Get dt) (req_address r) (req_length r).

(** * Theorems *)

(** ** The integer decoder *)

Lemma between_spec lo hi x : between lo hi x = true ↔ lo ≤ x ≤ hi.
Proof. unfold between. rewrite andb_true_iff, !Z.leb_le. done. Qed.

Lemma between_false lo hi x : between lo hi x = false ↔ ¬ (lo ≤ x ≤ hi).
Proof. rewrite <- between_spec. by destruct (between lo hi x). Qed.

Lemma is_hex_digit_value c :
  is_hex_digit c = true →
  ∃ d, digit_value c = Some d ∧ digit_in 16 c = Some d ∧ 0 ≤ d < 16.
Proof.
  unfold is_hex_digit, digit_in, digit_value. intros H.
  rewrite !orb_true_iff, !between_spec in H.
  destruct (between 48 57 (code c)) eqn:E1;
    [|destruct (between 65 90 (code c)) eqn:E2;
      [|destruct (between 97 122 (code c)) eqn:E3]].
  all: rewrite ?between_spec, ?between_false in *.
  all: try lia.
  all: eexists; split; [reflexivity|]; simpl.
  all: split; [|lia].
  all: destruct (Z.ltb_spec (code c - 48) 16), (Z.ltb_spec (code c - 55) 16),
         (Z.ltb_spec (code c - 87) 16); first [reflexivity | lia].
Qed.

Lemma positional_bounds ds :
  Forall (λ d, 0 ≤ d < 16) ds → 0 ≤ positional 16 ds < 16 ^ Z.of_nat (length ds).
Proof.
  induction 1 as [|d ds Hd _ IH]; simpl positional; simpl length; [lia|].
  rewrite Nat2Z.inj_succ, Z.pow_succ_r by lia. nia.
Qed.

Lemma hex_digits_values cs :
  forallb is_hex_digit cs = true →
  Forall (λ d, 0 ≤ d < 16) ((λ c, default 0 (digit_value c)) <$> cs).
Proof.
  induction cs as [|c cs IH]; simpl; [constructor|].
  intros [Hc Hcs]%andb_prop. constructor; [|by apply IH].
  destruct (is_hex_digit_value c Hc) as (d & -> & _ & Hd). done.
Qed.

Lemma int_digits_positional cs acc :
  forallb is_hex_digit cs = true →
  int_digits 16 acc cs
  = Some (acc * 16 ^ Z.of_nat (length cs)
          + positional 16 ((λ c, default 0 (digit_value c)) <$> cs)).
Proof.
  revert acc. induction cs as [|c cs IH]; intros acc.
  - intros _. simpl. f_equal. lia.
  - intros [Hc Hcs]%andb_prop.
    destruct (is_hex_digit_value c Hc) as (d & Hv & Hin & Hd).
    cbn [int_digits]. rewrite Hin. cbn [mbind option_bind].
    rewrite IH by done. rewrite fmap_cons. cbn [positional length].
    rewrite Hv. cbn [default]. unfold id.
    rewrite length_fmap, Nat2Z.inj_succ, Z.pow_succ_r by lia. f_equal. ring.
Qed.

Lemma digit_in_plain base c d :
  digit_in base c = Some d →
  is_space c = false ∧ c ≠ "+"%char ∧ c ≠ "-"%char ∧ c ≠ "_"%char ∧
  is_prefix_letter base c = false.
Proof.
  intros H. split_and!.
  - unfold digit_in, digit_value in H. unfold is_space.
    destruct (between 48 57 (code c)) eqn:E1;
      [|destruct (between 65 90 (code c)) eqn:E2;
        [|destruct (between 97 122 (code c)) eqn:E3; [|done]]].
    all: rewrite ?between_spec, ?between_false in *.
    all: apply orb_false_iff; split; [apply between_false|apply Z.eqb_neq]; lia.
  - intros ->. by vm_compute in H.
  - intros ->. by vm_compute in H.
  - intros ->. by vm_compute in H.
  - unfold is_prefix_letter.
    destruct (Z.eqb_spec base 16) as [->|_];
      [|destruct (Z.eqb_spec base 8) as [->|_];
        [|destruct (Z.eqb_spec base 2) as [->|_]; [|done]]].
    all: cbn [andb orb]; rewrite ?orb_false_r.
    all: apply bool_decide_eq_false; intros [-> | ->]; by vm_compute in H.
Qed.

Lemma digit_run_plain base cs : ∀ acc n,
  Forall (λ c, is_Some (digit_in base c)) cs →
  digit_run base false acc n cs
  = (λ v, (v, (n + length cs)%nat, [])) <$> int_digits base acc cs.
Proof.
  induction cs as [|c cs IH]; intros acc n Hcs.
  - simpl. by rewrite Nat.add_0_r.
  - apply Forall_cons in Hcs as [[d Hd] Hcs].
    destruct (digit_in_plain base c d Hd) as (_ & _ & _ & Hu & _).
    cbn [digit_run int_digits]. rewrite bool_decide_eq_false_2 by done.
    rewrite Hd. cbn [mbind option_bind]. rewrite IH by done.
    cbn [length]. by rewrite Nat.add_succ_r.
Qed.

(** On a string of digits alone [int] reads the positional value, within
    the limit on the number of digits. *)
Lemma int_of_str_plain base s :
  chars s ≠ [] → Forall (λ c, is_Some (digit_in base c)) (chars s) →
  int_of_str base s
  = if negb (is_power_of_two base)
       && (MAX_STR_DIGITS <? Z.of_nat (length (chars s)))
    then inl ValueError
    else match int_digits base 0 (chars s) with
         | Some v => inr v
         | None => inl ValueError
         end.
Proof.
  unfold int_of_str. destruct (chars s) as [|c cs]; [done|]. intros _ Hcs.
  pose proof Hcs as Hall. apply Forall_cons in Hcs as [[d Hd] Hcs].
  destruct (digit_in_plain base c d Hd) as (Hsp & Hplus & Hminus & Hu & _).
  cbn [lstrip_space]. rewrite Hsp. unfold strip_sign.
  rewrite !bool_decide_eq_false_2 by done.
  assert (strip_prefix base (c :: cs) = c :: cs) as ->.
  { unfold strip_prefix. destruct cs as [|c' cs]; [done|].
    apply Forall_cons in Hcs as [[d' Hd'] _].
    destruct (digit_in_plain base c' d' Hd') as (_ & _ & _ & _ & ->).
    by rewrite andb_false_r. }
  rewrite bool_decide_eq_false_2 by done.
  rewrite (digit_run_plain base (c :: cs) 0 0 Hall).
  destruct (int_digits base 0 (c :: cs)) as [v|]; cbn [fmap option_fmap option_map];
    [|by destruct (negb _ && _)].
  cbn [length Nat.add Nat.eqb forallb negb].
  by destruct (negb _ && _).
Qed.

Lemma hex_digits_plain cs :
  forallb is_hex_digit cs = true → Forall (λ c, is_Some (digit_in 16 c)) cs.
Proof.
  induction cs as [|c cs IH]; simpl; [constructor|].
  intros [Hc Hcs]%andb_prop. constructor; [|by apply IH].
  destruct (is_hex_digit_value c Hc) as (d & _ & -> & _). by eexists.
Qed.

Lemma int_of_str_hex s :
  is_hex_string s = true → int_of_str 16 s = inr (hex_value s).
Proof.
  unfold is_hex_string, hex_value. intros H.
  assert (chars s ≠ [] ∧ forallb is_hex_digit (chars s) = true) as [Hne Hall].
  { by destruct (chars s). }
  rewrite int_of_str_plain by (try apply hex_digits_plain; done).
  change (negb (is_power_of_two 16)) with false. cbn [andb].
  rewrite int_digits_positional by done. by rewrite Z.mul_0_l, Z.add_0_l.
Qed.

Lemma hex_value_bounds s :
  is_hex_string s = true →
  0 ≤ hex_value s < 16 ^ Z.of_nat (length (chars s)).
Proof.
  unfold is_hex_string, hex_value. intros H.
  rewrite <- (length_fmap (λ c, default 0 (digit_value c))).
  apply positional_bounds, hex_digits_values.
  by destruct (chars s).
Qed.

(** C4. On a register string (hexadecimal digits), [parse_ecoforest_int]
    returns its unsigned base-16 value [v] when [v <= 32768] and [v - 65536]
    exactly when [v > 32768]; on four digits the result lies in
    [-32767 .. 32768], and both ends are reached (by "8001" and "8000"). *)
Theorem parse_ecoforest_int_spec (s : string) :
  is_hex_string s = true →
  ∃ r, parse_ecoforest_int s = inr r ∧
       0 ≤ hex_value s ∧
       (hex_value s > 32768 → r = hex_value s - 65536) ∧
       (¬ hex_value s > 32768 → r = hex_value s) ∧
       (length (chars s) = 4%nat → -32767 ≤ r ≤ 32768) ∧
       parse_ecoforest_int "8001" = inr (-32767) ∧
       parse_ecoforest_int "8000" = inr 32768.
Proof.
  intros H. unfold parse_ecoforest_int. rewrite (int_of_str_hex s H).
  pose proof (hex_value_bounds s H) as Hb.
  eexists. split; [reflexivity|].
  assert (length (chars s) = 4%nat → hex_value s < 65536) as Hlen.
  { intros Hl. rewrite Hl in Hb. change (16 ^ Z.of_nat 4) with 65536 in Hb. lia. }
  destruct (Z.leb_spec (hex_value s) 32768);
    split_and!; try reflexivity; try lia; intros Hl; specialize (Hlen Hl); lia.
Qed.

Lemma parse_ecoforest_int_spec_witness :
  ∃ r, parse_ecoforest_int "F601" = inr r ∧
       0 ≤ hex_value "F601" ∧
       (hex_value "F601" > 32768 → r = hex_value "F601" - 65536) ∧
       (¬ hex_value "F601" > 32768 → r = hex_value "F601") ∧
       (length (chars "F601") = 4%nat → -32767 ≤ r ≤ 32768) ∧
       parse_ecoforest_int "8001" = inr (-32767) ∧
       parse_ecoforest_int "8000" = inr 32768.
Proof. apply (parse_ecoforest_int_spec "F601"). reflexivity. Defined.

(** C5, as stated: "8000" decodes to -32768, "7FFF" to 32767, "0000" to 0
    and "8001" to -32767.  The first of the four fails: 32768 is not above
    the threshold of [parse_ecoforest_int] and is returned as it is. *)
Lemma int_decoding_examples_counterexample :
  ¬ (parse_ecoforest_int "8000" = inr (-32768) ∧
     parse_ecoforest_int "7FFF" = inr 32767 ∧
     parse_ecoforest_int "0000" = inr 0 ∧
     parse_ecoforest_int "8001" = inr (-32767)).
Proof. intros [H _]. vm_compute in H. discriminate H. Qed.

(** C5, amended: "8000" decodes to 32768 (the one raw value above 32767 that
    is not wrapped), "7FFF" to 32767, "0000" to 0 and "8001" to -32767. *)
Theorem int_decoding_examples :
  parse_ecoforest_int "8000" = inr 32768 ∧
  parse_ecoforest_int "7FFF" = inr 32767 ∧
  parse_ecoforest_int "0000" = inr 0 ∧
  parse_ecoforest_int "8001" = inr (-32767).
Proof. split_and!; reflexivity. Qed.

(** ** Decoding a raw table *)

(** C6, as stated: the two-entry catalog decodes "270F" at register 200 to
    973.5, and "F601" to -999.9, hence to null.  Neither holds: "270F" is
    9999, read as 999.9, and "F601" is -2559, read as -255.9 and kept. *)
Lemma decode_end_to_end_counterexample :
  ¬ (∃ snap q, decode two_entry_catalog (two_entry_table "270F") = inr snap ∧
               dict_get "field_a" snap = Some (VBool true) ∧
               dict_get "field_b" snap = Some (VFloat q) ∧ (q == 973.5)%Q) ∧
  ¬ (∃ snap q, parse_ecoforest_float "F601" = inr q ∧ (q == -999.9)%Q ∧
               decode two_entry_catalog (two_entry_table "F601") = inr snap ∧
               dict_get "field_b" snap = Some VNone).
Proof.
  split.
  - intros (snap & q & H & _ & Hb & Hq). vm_compute in H.
    injection H as <-. vm_compute in Hb. injection Hb as <-.
    vm_compute in Hq. discriminate Hq.
  - intros (snap & q & H & Hq & _). vm_compute in H. injection H as <-.
    vm_compute in Hq. discriminate Hq.
Qed.

(** C6, amended: the two-entry catalog decodes the table with "270F" at
    register 200 to [{field_a: true, field_b: 999.9}]; with "F601" the float
    is -255.9 and stays in the snapshot; with "D8F1", which is -999.9, the
    temperature field is null. *)
Theorem decode_end_to_end :
  decode two_entry_catalog (two_entry_table "270F")
  = inr [("field_a", VBool true); ("field_b", VFloat 999.9)] ∧
  decode two_entry_catalog (two_entry_table "F601")
  = inr [("field_a", VBool true); ("field_b", VFloat (-255.9))] ∧
  parse_ecoforest_float "D8F1" = inr (-999.9)%Q ∧
  decode two_entry_catalog (two_entry_table "D8F1")
  = inr [("field_a", VBool true); ("field_b", VNone)].
Proof. split_and!; reflexivity. Qed.

(** ** The range coalescer *)

Lemma sorted_elem_of a l : a ∈ sorted l ↔ a ∈ l.
Proof. unfold sorted. by rewrite merge_sort_Permutation. Qed.

Lemma StronglySorted_le_lt (l : list Z) :
  StronglySorted Z.le l → NoDup l → StronglySorted Z.lt l.
Proof.
  induction 1 as [|x l Hl IH Hx]; intros Hnd; [constructor|].
  apply NoDup_cons in Hnd as [Hnotin Hnd].
  constructor; [by apply IH|].
  apply Forall_forall. intros y Hy.
  rewrite Forall_forall in Hx. specialize (Hx y Hy).
  assert (x ≠ y) by (intros ->; done). lia.
Qed.

Lemma sorted_strict l : NoDup l → StronglySorted Z.lt (sorted l).
Proof.
  intros Hnd. apply StronglySorted_le_lt.
  - apply StronglySorted_merge_sort; apply _.
  - unfold sorted. by rewrite merge_sort_Permutation.
Qed.

(** The scan, from any open run [start .. prev] and strictly increasing
    addresses above [prev] that are still to come. *)
Lemma coalesce_from_spec rest : ∀ start prev,
  start ≤ prev →
  StronglySorted Z.lt rest →
  Forall (λ a, prev < a) rest →
  Forall (λ r, 0 < req_length r ∧ start ≤ req_address r) (coalesce_from start prev rest) ∧
  StronglySorted apart (coalesce_from start prev rest) ∧
  (∀ a, (∃ r, r ∈ coalesce_from start prev rest ∧ covers r a)
        ↔ (start ≤ a ≤ prev ∨ a ∈ rest)).
Proof.
  induction rest as [|addr rest IH]; intros start prev Hle Hsorted Habove.
  - cbn [coalesce_from]. split_and!.
    + repeat constructor; simpl; lia.
    + repeat constructor.
    + intros a. split.
      * intros (r & ->%list_elem_of_singleton & Hc). left.
        unfold covers in Hc. simpl in Hc. lia.
      * intros [Ha | Ha%elem_of_nil]; [|done].
        eexists. split; [apply list_elem_of_singleton; reflexivity|].
        unfold covers. simpl. lia.
  - apply StronglySorted_inv in Hsorted as [Hsorted Hrest].
    apply Forall_cons in Habove as [Haddr Habove].
    cbn [coalesce_from]. case_decide as Hgap.
    + destruct (IH addr addr) as (Hpos & Hss & Hcov); [lia|done|done|].
      split_and!.
      * constructor; [simpl; lia|].
        eapply Forall_impl; [exact Hpos|]. simpl. intros r [? ?]. lia.
      * constructor; [done|].
        eapply Forall_impl; [exact Hpos|]. unfold apart. simpl. intros r [? ?]. lia.
      * intros a. rewrite elem_of_cons. split.
        -- intros (r & [->|Hr]%elem_of_cons & Hc).
           ++ left. unfold covers in Hc. simpl in Hc. lia.
           ++ destruct (proj1 (Hcov a)) as [?|?]; [by eauto| |by auto].
              right. left. lia.
        -- intros [Ha | [-> | Ha]].
           ++ eexists. split; [apply elem_of_cons; left; reflexivity|].
              unfold covers. simpl. lia.
           ++ destruct (proj2 (Hcov addr)) as (r & Hr & Hc); [left; lia|].
              exists r. split; [by apply elem_of_cons; right|done].
           ++ destruct (proj2 (Hcov a)) as (r & Hr & Hc); [by right|].
              exists r. split; [by apply elem_of_cons; right|done].
    + assert (addr = prev + 1) as -> by (destruct (decide (addr = prev + 1)); [done|contradiction]).
      destruct (IH start (prev + 1)) as (Hpos & Hss & Hcov).
      { lia. } { done. }
      { rewrite Forall_forall in Hrest. apply Forall_forall. intros y Hy.
        specialize (Hrest y Hy). lia. }
      split_and!; [done|done|].
      intros a. rewrite Hcov, elem_of_cons. intuition lia.
Qed.

Lemma coalesce_spec_sorted l :
  StronglySorted Z.lt l →
  Forall (λ r, 0 < req_length r) (coalesce l) ∧
  StronglySorted apart (coalesce l) ∧
  (∀ a, (∃ r, r ∈ coalesce l ∧ covers r a) ↔ a ∈ l).
Proof.
  destruct l as [|a0 l]; intros Hs.
  - simpl. split_and!; [constructor|constructor|].
    intros a. split; [intros (r & Hr%elem_of_nil & _); done|intros []%elem_of_nil].
  - apply StronglySorted_inv in Hs as [Hs Hall].
    destruct (coalesce_from_spec l a0 a0) as (Hpos & Hss & Hcov); [lia|done|done|].
    cbn [coalesce]. split_and!; [|done|].
    + eapply Forall_impl; [exact Hpos|]. by intros r [? _].
    + intros a. rewrite Hcov, elem_of_cons. intuition lia.
Qed.

Lemma StronglySorted_lookup_lt {A} (R : relation A) (l : list A) i j x y :
  StronglySorted R l → (i < j)%nat → l !! i = Some x → l !! j = Some y → R x y.
Proof.
  intros Hs. revert i j. induction Hs as [|a l Hs IH Ha]; intros i j Hij Hi Hj.
  - by rewrite lookup_nil in Hi.
  - destruct j as [|j]; [lia|]. destruct i as [|i]; simpl in *.
    + injection Hi as <-. rewrite Forall_forall in Ha.
      apply Ha. by eapply list_elem_of_lookup_2.
    + apply (IH i j); [lia|done|done].
Qed.

(** Two ranges at different places of a coalesced list share no address. *)
Lemma apart_disjoint (rs : list request) i j r1 r2 a :
  StronglySorted apart rs → Forall (λ r, 0 < req_length r) rs →
  i ≠ j → rs !! i = Some r1 → rs !! j = Some r2 →
  covers r1 a → ¬ covers r2 a ∧ ¬ covers r2 (a + 1) ∧ ¬ covers r2 (a - 1).
Proof.
  intros Hs Hpos Hij Hi Hj Hc.
  rewrite Forall_forall in Hpos.
  pose proof (Hpos r1 (list_elem_of_lookup_2 _ _ _ Hi)).
  pose proof (Hpos r2 (list_elem_of_lookup_2 _ _ _ Hj)).
  unfold covers in *.
  destruct (decide (i < j)%nat).
  - pose proof (StronglySorted_lookup_lt apart rs i j r1 r2 Hs ltac:(lia) Hi Hj) as Hap.
    unfold apart in Hap. lia.
  - pose proof (StronglySorted_lookup_lt apart rs j i r2 r1 Hs ltac:(lia) Hj Hi) as Hap.
    unfold apart in Hap. lia.
Qed.

Lemma apart_sorted_by_start (rs : list request) :
  StronglySorted apart rs → Forall (λ r, 0 < req_length r) rs →
  StronglySorted (λ r1 r2, req_address r1 < req_address r2) rs.
Proof.
  induction 1 as [|r rs Hs IH Hr]; intros Hpos; [constructor|].
  apply Forall_cons in Hpos as [Hr0 Hpos].
  constructor; [by apply IH|].
  eapply Forall_impl; [exact Hr|]. unfold apart. simpl. intros; lia.
Qed.

(** C2. For a finite set of addresses, given as a duplicate-free list in any
    order, the ranges that [_build_requests] forms from the sorted addresses
    cover exactly the set, are non-empty, sorted ascending by start, pairwise
    disjoint, and maximal: consecutive ranges leave an address out between
    them, and neither the address before a range nor the one after it is in
    the set.  The empty set gives no range, and {5,6,7,10,11,20} gives
    (5,3), (10,2), (20,1).  Non-negativity of the addresses is not needed.
    These are the ranges that [_build_requests] stores for an address space,
    from the addresses of the mapping's entries in that space. *)
Theorem coalesce_spec (addresses : list Z) :
  NoDup addresses →
  (∀ m dt, at_type (_build_requests m) dt = coalesce (sorted (addresses_of m dt))) ∧
  (∀ a, a ∈ addresses ↔ ∃ r, r ∈ coalesce (sorted addresses) ∧ covers r a) ∧
  Forall (λ r, 0 < req_length r) (coalesce (sorted addresses)) ∧
  StronglySorted (λ r1 r2, req_address r1 < req_address r2)
    (coalesce (sorted addresses)) ∧
  (∀ i j r1 r2 a,
     i ≠ j →
     coalesce (sorted addresses) !! i = Some r1 →
     coalesce (sorted addresses) !! j = Some r2 →
     covers r1 a → ¬ covers r2 a) ∧
  StronglySorted apart (coalesce (sorted addresses)) ∧
  Forall (λ r, ¬ (req_address r - 1 ∈ addresses) ∧
               ¬ (req_address r + req_length r ∈ addresses))
    (coalesce (sorted addresses)) ∧
  coalesce (sorted []) = [] ∧
  coalesce (sorted [5; 6; 7; 10; 11; 20])
  = [Request 5 3; Request 10 2; Request 20 1].
Proof.
  intros Hnd.
  destruct (coalesce_spec_sorted (sorted addresses) (sorted_strict _ Hnd))
    as (Hpos & Hss & Hcov).
  assert (∀ a, a ∈ addresses ↔ ∃ r, r ∈ coalesce (sorted addresses) ∧ covers r a)
    as Hcov'.
  { intros a. by rewrite Hcov, sorted_elem_of. }
  split_and!; [by intros m []|done|done| | |done| |reflexivity|reflexivity].
  - by apply apart_sorted_by_start.
  - intros i j r1 r2 a Hij Hi Hj Hc.
    by destruct (apart_disjoint _ i j r1 r2 a Hss Hpos Hij Hi Hj Hc).
  - apply Forall_forall. intros r Hr.
    destruct (list_elem_of_lookup_1 _ _ Hr) as [i Hi].
    pose proof (proj1 (Forall_forall _ _) Hpos r Hr) as Hlen. simpl in Hlen.
    split; intros Hin; apply Hcov' in Hin as (r' & Hr' & Hc');
      destruct (list_elem_of_lookup_1 _ _ Hr') as [j Hj].
    + destruct (decide (j = i)) as [->|Hne].
      * assert (r' = r) as -> by congruence. unfold covers in Hc'. lia.
      * destruct (apart_disjoint _ j i r' r _ Hss Hpos Hne Hj Hi Hc') as (_ & Hn & _).
        apply Hn. unfold covers. lia.
    + destruct (decide (j = i)) as [->|Hne].
      * assert (r' = r) as -> by congruence. unfold covers in Hc'. lia.
      * destruct (apart_disjoint _ j i r' r _ Hss Hpos Hne Hj Hi Hc') as (_ & _ & Hn).
        apply Hn. unfold covers. lia.
Qed.

Lemma coalesce_spec_witness :
  NoDup [20; 5; 7; 6; 11; 10] ∧
  coalesce (sorted [20; 5; 7; 6; 11; 10])
  = [Request 5 3; Request 10 2; Request 20 1] ∧
  StronglySorted apart (coalesce (sorted [20; 5; 7; 6; 11; 10])).
Proof.
  assert (NoDup [20; 5; 7; 6; 11; 10]) as Hnd
    by (apply (bool_decide_unpack _); vm_compute; exact I).
  split; [exact Hnd|]. split; [reflexivity|].
  exact (proj1 (proj2 (proj2 (proj2 (proj2 (proj2 (coalesce_spec _ Hnd))))))).
Defined.

(** ** Dictionaries *)

Section dict_lemmas.
Context {K V : Type} `{EqDecision K}.
Implicit Types (d : list (K * V)) (k : K) (v : V).

Lemma dict_get_set_eq d k v : dict_get k (dict_set k v d) = Some v.
Proof.
  induction d as [|[k' v'] d IH]; simpl.
  - by rewrite decide_True.
  - case_decide as Hk; simpl.
    + by rewrite decide_True.
    + by rewrite decide_False.
Qed.

Lemma dict_get_set_ne d k k' v :
  k ≠ k' → dict_get k' (dict_set k v d) = dict_get k' d.
Proof.
  intros Hne. induction d as [|[k0 v0] d IH]; simpl.
  - by rewrite decide_False.
  - case_decide as Hk; simpl.
    + subst k0. by rewrite !decide_False.
    + case_decide; [done|apply IH].
Qed.

Lemma dict_keys_set d k v :
  dict_keys (dict_set k v d) = dict_keys d ∧ k ∈ dict_keys d ∨
  dict_keys (dict_set k v d) = dict_keys d ++ [k] ∧ k ∉ dict_keys d.
Proof.
  unfold dict_keys. induction d as [|[k0 v0] d IH].
  - right. split; [done|]. apply not_elem_of_nil.
  - cbn [dict_set]. case_decide as Hk; rewrite !fmap_cons; cbn [fst].
    + left. split; [done|]. subst. apply elem_of_cons. by left.
    + destruct IH as [[Heq Hin]|[Heq Hnin]]; rewrite Heq.
      * left. split; [done|]. apply elem_of_cons. by right.
      * right. split; [done|]. rewrite not_elem_of_cons. done.
Qed.

Lemma dict_keys_set_NoDup d k v :
  NoDup (dict_keys d) → NoDup (dict_keys (dict_set k v d)).
Proof.
  intros Hnd. destruct (dict_keys_set d k v) as [[-> _]|[-> Hnin]]; [done|].
  apply NoDup_app. split_and!; [done| |apply NoDup_singleton].
  intros x Hx ->%list_elem_of_singleton. done.
Qed.

Lemma dict_get_app d1 d2 k :
  dict_get k (d1 ++ d2)
  = match dict_get k d1 with Some v => Some v | None => dict_get k d2 end.
Proof.
  induction d1 as [|[k' v'] d1 IH]; simpl; [done|]. by case_decide.
Qed.

(** After [d.update(other)] a key holds what [other] gave it last, and
    what [d] held when [other] does not have the key. *)
Lemma dict_get_update other : ∀ d k,
  dict_get k (dict_update d other)
  = match dict_get k (reverse other) with
    | Some v => Some v
    | None => dict_get k d
    end.
Proof.
  unfold dict_update.
  induction other as [|[k0 v0] other IH]; intros d k; simpl; [done|].
  rewrite IH, reverse_cons, dict_get_app. simpl.
  destruct (dict_get k (reverse other)); [done|].
  case_decide as Hk.
  - subst. apply dict_get_set_eq.
  - by apply dict_get_set_ne.
Qed.

Lemma dict_update_NoDup other : ∀ d,
  NoDup (dict_keys d) → NoDup (dict_keys (dict_update d other)).
Proof.
  unfold dict_update.
  induction other as [|[k0 v0] other IH]; intros d Hnd; simpl; [done|].
  by apply IH, dict_keys_set_NoDup.
Qed.

Lemma dict_update_app d o1 o2 :
  dict_update (dict_update d o1) o2 = dict_update d (o1 ++ o2).
Proof. unfold dict_update. by rewrite foldl_app. Qed.
End dict_lemmas.

(** ** The catalog builder *)

Lemma complete_fields it :
  complete it = true → ∃ name addr, item_name it = Some name ∧ item_address it = Some addr.
Proof.
  unfold complete. intros [[name Hn]%bool_decide_eq_true [addr Ha]%bool_decide_eq_true]%andb_prop.
  eauto.
Qed.

(** One loop of [_build_mapping] over complete items is a [dict.update]
    with their entries. *)
Lemma for_each_add (add : mapping → item → exn + mapping)
    (mk : string → Z → string * definition) :
  (∀ m it name addr,
     item_name it = Some name → item_address it = Some addr →
     add m it = inr (dict_set (mk name addr).1 (mk name addr).2 m)) →
  ∀ items m,
    forallb complete items = true →
    for_each add m items = inr (dict_update m (omap (item_entry mk) items)).
Proof.
  intros Hadd. induction items as [|it items IH]; intros m Hc; [done|].
  simpl in Hc. apply andb_prop in Hc as [Hit Hc].
  destruct (complete_fields it Hit) as (name & addr & Hn & Ha).
  cbn [for_each omap list_omap]. unfold item_entry at 1. rewrite Hn, Ha. simpl.
  rewrite (Hadd m it name addr Hn Ha). simpl. by rewrite IH.
Qed.

Lemma add_analog_entry m it name addr :
  item_name it = Some name → item_address it = Some addr →
  add_analog m it
  = inr (dict_set (analog_entry name addr).1 (analog_entry name addr).2 m).
Proof. unfold add_analog. by intros -> ->. Qed.

Lemma add_integer_entry m it name addr :
  item_name it = Some name → item_address it = Some addr →
  add_integer m it
  = inr (dict_set (integer_entry name addr).1 (integer_entry name addr).2 m).
Proof.
  unfold add_integer, integer_entry. intros -> ->. simpl.
  rewrite (bool_decide_ext (_infer_entity_type name ∈ ["power"; "temperature"])
             (_infer_entity_type name = "power"
              ∨ _infer_entity_type name = "temperature")); [done|].
  rewrite !elem_of_cons, elem_of_nil. tauto.
Qed.

Lemma add_boolean_entry m it name addr :
  item_name it = Some name → item_address it = Some addr →
  add_boolean m it
  = inr (dict_set (boolean_entry name addr).1 (boolean_entry name addr).2 m).
Proof. unfold add_boolean. by intros -> ->. Qed.

(** C3, as stated: a block with two definitions whose names slug to the same
    key makes the build fail.  [colliding_block] has two such names and the
    build returns a mapping. *)
Lemma duplicate_key_counterexample :
  _slugify "Outdoor Temp" = _slugify "outdoor-temp" ∧
  ¬ raises (_build_mapping colliding_block).
Proof.
  split; [reflexivity|]. intros [e He]. vm_compute in He. discriminate He.
Qed.

(** C3, amended: [_build_mapping] has no duplicate-key check.  On a block
    whose items all have a name and an address it returns a mapping, also
    when two names slug to the same key; the mapping has each key once, and
    a key holds the entry of the last definition with that slug, in the
    order analog, integer, boolean and document order within each list. *)
Theorem build_mapping_last_wins (b : block) :
  forallb complete (analog b ++ integer b ++ boolean b) = true →
  ∃ m, _build_mapping b = inr m ∧
       NoDup (dict_keys m) ∧
       ∀ k, dict_get k m = dict_get k (reverse (block_entries b)).
Proof.
  rewrite !forallb_app, !andb_true_iff. intros (Ha & Hi & Hb).
  unfold _build_mapping.
  rewrite (for_each_add add_analog analog_entry add_analog_entry _ _ Ha).
  cbn [mbind exn_bind].
  rewrite (for_each_add add_integer integer_entry add_integer_entry _ _ Hi).
  cbn [mbind exn_bind].
  rewrite (for_each_add add_boolean boolean_entry add_boolean_entry _ _ Hb).
  rewrite !dict_update_app. fold (block_entries b).
  eexists. split; [reflexivity|]. split.
  - apply dict_update_NoDup. constructor.
  - intros k. rewrite dict_get_update. by destruct (dict_get k (reverse _)).
Qed.

Lemma build_mapping_last_wins_witness :
  ∃ m, _build_mapping colliding_block = inr m ∧
       NoDup (dict_keys m) ∧
       ∀ k, dict_get k m = dict_get k (reverse (block_entries colliding_block)).
Proof. apply (build_mapping_last_wins colliding_block). reflexivity. Defined.

(** ** Coroutines of the session *)

Lemma with_io_id s : with_io s (calls s) (trace s) = s.
Proof. by destruct s. Qed.

Lemma io_step_refl P w : io_step P w w.
Proof.
  exists (calls (self w)), []. split; [|constructor].
  rewrite app_nil_r, with_io_id. by destruct w.
Qed.

Lemma io_step_trans P w1 w2 w3 :
  io_step P w1 w2 → io_step P w2 w3 → io_step P w1 w3.
Proof.
  intros (c1 & t1 & -> & H1) (c2 & t2 & -> & H2). simpl.
  exists c2, (t1 ++ t2). split; [|by apply Forall_app].
  unfold with_io. simpl. by rewrite app_assoc.
Qed.

(** What a step keeps and what it adds. *)
Lemma io_step_inv P w w' :
  io_step P w w' →
  MAPPING w' = MAPPING w ∧
  _MAPPING (self w') = _MAPPING (self w) ∧
  _REQUESTS (self w') = _REQUESTS (self w) ∧
  _model_name (self w') = _model_name (self w) ∧
  host (self w') = host (self w) ∧
  ∃ t, trace (self w') = trace (self w) ++ t ∧ Forall P t.
Proof. intros (c & t & -> & Ht). simpl. split_and!; eauto. Qed.

Lemma model_reads_app t1 t2 :
  model_reads (t1 ++ t2) = (model_reads t1 + model_reads t2)%nat.
Proof. unfold model_reads. by rewrite filter_app, length_app. Qed.

Lemma model_reads_quiet t : Forall quiet t → model_reads t = 0%nat.
Proof.
  unfold model_reads, quiet. induction 1 as [|e t He _ IH]; [done|].
  rewrite filter_cons_False; [done|]. by rewrite He.
Qed.

Section combinators.
Context (P : event → Prop).

Lemma steps_ret {A} (a : A) : steps P (mret a).
Proof. intros w. apply io_step_refl. Qed.

Lemma steps_lift {A} (r : exn + A) : steps P (lift r).
Proof. intros w. apply io_step_refl. Qed.

Lemma steps_raise {A} (e : exn) : steps P (raise (A:=A) e).
Proof. intros w. apply io_step_refl. Qed.

Lemma steps_get_self : steps P get_self.
Proof. intros w. apply io_step_refl. Qed.

Lemma steps_bind {A B} (m : io A) (f : A → io B) :
  steps P m → (∀ a, steps P (f a)) → steps P (m ≫= f).
Proof.
  intros Hm Hf w. unfold mbind, io_bind.
  specialize (Hm w). destruct (m w) as [[e|a] w1]; simpl in *; [done|].
  eapply io_step_trans; [exact Hm|apply Hf].
Qed.

Lemma steps_try_except {A} (body : io A) (handler : exn → io A) :
  steps P body → (∀ e, steps P (handler e)) → steps P (try_except body handler).
Proof.
  intros Hb Hh w. unfold try_except.
  specialize (Hb w). destruct (body w) as [[e|a] w1]; simpl in *; [|done].
  eapply io_step_trans; [exact Hb|apply Hh].
Qed.

Lemma steps_for_io {A B} (f : B → A → io B) (l : list A) :
  (∀ b a, steps P (f b a)) → ∀ b, steps P (for_io f b l).
Proof.
  intros Hf. induction l as [|a l IH]; intros b; simpl.
  - apply steps_ret.
  - apply steps_bind; [apply Hf|]. intros b'. apply IH.
Qed.

Lemma steps_request from op_type address length :
  P (Read from op_type address length) →
  steps P (_request from op_type address length).
Proof.
  intros HP w. unfold _request. simpl.
  eexists _, [_]. split; [reflexivity|]. by constructor.
Qed.

Lemma steps_sleep seconds : P (Sleep seconds) → steps P (sleep seconds).
Proof.
  intros HP w. unfold sleep, modify_self. simpl.
  eexists _, [_]. split; [reflexivity|]. by constructor.
Qed.

Lemma steps_load_data from address length op_type :
  P (Read from op_type address length) →
  steps P (_load_data from address length op_type).
Proof.
  intros HP. unfold _load_data. apply steps_bind.
  - by apply steps_request.
  - intros response. apply steps_lift.
Qed.
End combinators.

Lemma never_raises_ret {A} (a : A) : never_raises (mret a).
Proof. intros w. by exists a. Qed.

Lemma never_raises_bind {A B} (m : io A) (f : A → io B) :
  never_raises m → (∀ a, never_raises (f a)) → never_raises (m ≫= f).
Proof.
  intros Hm Hf w. unfold mbind, io_bind.
  destruct (Hm w) as [a Ha]. destruct (m w) as [[e|a'] w1]; simpl in *; [done|].
  apply Hf.
Qed.

Lemma never_raises_for_io {A B} (f : B → A → io B) (l : list A) :
  (∀ b a, never_raises (f b a)) → ∀ b, never_raises (for_io f b l).
Proof.
  intros Hf. induction l as [|a l IH]; intros b; simpl.
  - apply never_raises_ret.
  - apply never_raises_bind; [apply Hf|]. intros b'. apply IH.
Qed.

(** ** The polling loops *)

Lemma attempt_steps dt r state i : steps quiet (attempt dt r state i).
Proof.
  unfold attempt. apply steps_try_except.
  - apply steps_bind; [by apply steps_load_data|]. intros data. apply steps_ret.
  - intros e. case_match.
    + apply steps_bind; [by apply steps_sleep|]. intros _. apply steps_ret.
    + apply steps_raise.
Qed.

(** The guard [i < 4] of the handler holds at every turn of [range(3)], so
    the handler sleeps and goes on; its [raise] is never reached. *)
Lemma attempt_never_raises dt r state i :
  i < 4 → never_raises (attempt dt r state i).
Proof.
  intros Hi w. unfold attempt, try_except.
  apply Z.ltb_lt in Hi. rewrite Hi.
  match goal with |- context [match ?b w with _ => _ end] =>
    destruct (b w) as [[e|o] w1] end; by eexists.
Qed.

Lemma retry_steps dt r range : ∀ state, steps quiet (retry dt r state range).
Proof.
  induction range as [|i range IH]; intros state; simpl.
  - apply steps_ret.
  - apply steps_bind; [apply attempt_steps|].
    intros [state'|]; [apply steps_ret|apply IH].
Qed.

Lemma retry_never_raises dt r range :
  Forall (λ i, i < 4) range → ∀ state, never_raises (retry dt r state range).
Proof.
  induction 1 as [|i range Hi _ IH]; intros state; simpl.
  - apply never_raises_ret.
  - apply never_raises_bind; [by apply attempt_never_raises|].
    intros [state'|]; [apply never_raises_ret|apply IH].
Qed.

Lemma range_3_below_4 : Forall (λ i, i < 4) (seqZ 0 3).
Proof. apply Forall_forall. intros i [_ ?]%elem_of_seqZ. lia. Qed.

Lemma read_ranges_steps : steps quiet read_ranges.
Proof.
  unfold read_ranges. apply steps_for_io. intros state dt.
  apply steps_bind; [apply steps_get_self|]. intros s.
  apply steps_for_io. intros state' r. apply retry_steps.
Qed.

Lemma read_ranges_never_raises : never_raises read_ranges.
Proof.
  unfold read_ranges. apply never_raises_for_io. intros state dt.
  apply never_raises_bind; [intros w; by eexists|]. intros s.
  apply never_raises_for_io. intros state' r.
  apply retry_never_raises, range_3_below_4.
Qed.

Lemma read_and_decode_steps : steps quiet read_and_decode.
Proof.
  unfold read_and_decode. apply steps_bind; [apply read_ranges_steps|].
  intros state. apply steps_bind; [apply steps_get_self|]. intros s.
  apply steps_bind; [apply steps_lift|]. intros info. apply steps_ret.
Qed.

(** ** The model read *)

Lemma dict_set_fresh {K V} `{EqDecision K} (d : list (K * V)) k v :
  k ∉ dict_keys d → dict_set k v d = d ++ [(k, v)].
Proof.
  unfold dict_keys. induction d as [|[k' v'] d IH]; [done|].
  rewrite fmap_cons, not_elem_of_cons. cbn [fst]. intros [Hne Hnin].
  cbn [dict_set]. rewrite decide_False by done. by rewrite IH.
Qed.

(** [_load_data] on a long enough response pairs the addresses of the range
    with the values in order. *)
Lemma fill_fresh response range : ∀ result index,
  NoDup range →
  Forall (λ k, k ∉ dict_keys result) range →
  (index + length range ≤ length response)%nat →
  fill result range index response
  = inr (result ++ zip range (take (length range) (drop index response))).
Proof.
  induction range as [|i range IH]; intros result index Hnd Hfresh Hlen.
  - simpl. by rewrite app_nil_r.
  - apply NoDup_cons in Hnd as [Hi Hnd].
    apply Forall_cons in Hfresh as [Hfi Hfresh].
    cbn [length] in Hlen. cbn [fill].
    destruct (response !! index) as [v|] eqn:Hv.
    2: { apply lookup_ge_None in Hv. lia. }
    rewrite dict_set_fresh by done. rewrite IH; [|done| |lia].
    + rewrite <- app_assoc. cbn [length take].
      by rewrite (drop_S _ _ _ Hv).
    + apply Forall_forall. intros k Hk.
      rewrite Forall_forall in Hfresh. specialize (Hfresh k Hk).
      unfold dict_keys in *. rewrite fmap_app, elem_of_app. cbn.
      rewrite list_elem_of_singleton. intros [?| ->]; done.
Qed.

Lemma load_values response address length :
  (Z.to_nat length ≤ List.length response)%nat →
  ∃ data, fill [] (seqZ address length) 0 response = inr data ∧
          dict_values data = take (Z.to_nat length) response.
Proof.
  intros Hlen. eexists. split.
  - apply fill_fresh.
    + apply NoDup_seqZ.
    + apply Forall_forall. intros k _. apply not_elem_of_nil.
    + by rewrite length_seqZ.
  - unfold dict_values. rewrite app_nil_l, length_seqZ, drop_0.
    apply snd_zip. rewrite length_seqZ, length_take. lia.
Qed.

Lemma model_dictionary_index i :
  -37 ≤ i < 37 → list_index model_dictionary i = inr (symbol i).
Proof.
  intros Hi.
  assert (Forall (λ i, list_index model_dictionary i = inr (symbol i)) (seqZ (-37) 74))
    as Hall by (apply (bool_decide_unpack _); vm_compute; exact I).
  rewrite Forall_forall in Hall. apply Hall, elem_of_seqZ. lia.
Qed.

Lemma model_dictionary_index_out i :
  i < -37 ∨ 37 ≤ i → list_index model_dictionary i = inl IndexError.
Proof.
  unfold list_index. change (length model_dictionary) with 37%nat.
  intros [Hi|Hi].
  - destruct (Z.ltb_spec i 0); [|lia].
    destruct (Z.ltb_spec (i + Z.of_nat 37) 0); [done|lia].
  - destruct (Z.ltb_spec i 0); [lia|].
    destruct (Z.ltb_spec i 0); [lia|].
    rewrite (proj2 (lookup_ge_None model_dictionary (Z.to_nat i))); [done|].
    change (length model_dictionary) with 37%nat. lia.
Qed.

(** The loop of the model name, from any symbols already gathered. *)
Lemma model_symbols values idx :
  Forall2 (λ x i, parse_ecoforest_int x = inr i) values idx →
  ∀ acc,
    (Forall (λ i, -37 ≤ i < 37) idx →
     for_each (λ acc x, i ← parse_ecoforest_int x;
                        sym ← list_index model_dictionary i;
                        mret (acc ++ [sym])) acc values
     = inr (acc ++ (symbol <$> idx))) ∧
    (Exists (λ i, i < -37 ∨ 37 ≤ i) idx →
     for_each (λ acc x, i ← parse_ecoforest_int x;
                        sym ← list_index model_dictionary i;
                        mret (acc ++ [sym])) acc values
     = inl IndexError).
Proof.
  induction 1 as [|x i values idx Hx _ IH]; intros acc.
  - split; [intros _; simpl; by rewrite app_nil_r|]. by intros ?%Exists_nil.
  - cbn [for_each]. rewrite Hx. cbn [mbind exn_bind].
    destruct (decide (-37 ≤ i < 37)) as [Hi|Hi].
    + rewrite (model_dictionary_index i Hi). cbn [mbind exn_bind mret exn_ret].
      destruct (IH (acc ++ [symbol i])) as [IHok IHbad]. split.
      * intros [_ Hall]%Forall_cons. rewrite IHok by done.
        by rewrite fmap_cons, <- app_assoc.
      * intros [Hbad|Hbad]%Exists_cons; [lia|]. by apply IHbad.
    + rewrite (model_dictionary_index_out i) by lia. split; [|done].
      intros [? _]%Forall_cons. lia.
Qed.

Lemma decode_model_spec values idx :
  Forall2 (λ x i, parse_ecoforest_int x = inr i) values idx →
  (Forall (λ i, -37 ≤ i < 37) idx →
   decode_model values = inr (String.concat "" (symbol <$> idx))) ∧
  (Exists (λ i, i < -37 ∨ 37 ≤ i) idx → decode_model values = inl IndexError).
Proof.
  intros H. destruct (model_symbols values idx H []) as [Hok Hbad].
  unfold decode_model. split; intros Hi.
  - by rewrite Hok.
  - by rewrite Hbad.
Qed.

Section session.
Variables _DOMESTIC_MAPPING _HP_MAPPING : mapping.

#[local] Abbreviation resolve_model := (resolve_model _DOMESTIC_MAPPING _HP_MAPPING).
#[local] Abbreviation get := (get _DOMESTIC_MAPPING _HP_MAPPING).
#[local] Abbreviation get_times := (get_times _DOMESTIC_MAPPING _HP_MAPPING).
#[local] Abbreviation resolved := (resolved _DOMESTIC_MAPPING _HP_MAPPING).
#[local] Abbreviation selected := (selected _DOMESTIC_MAPPING _HP_MAPPING).

(** The model branch: the range is requested once; a failure of the read
    or of the decoding leaves the session unresolved, and a name is stored
    together with the catalog it selects. *)
Lemma resolve_model_spec w :
  resolve_model w
  = match detect w with
    | inl e => (inl e, after_model_read w)
    | inr name => (inr (), resolved name (after_model_read w))
    end.
Proof.
  unfold resolve_model, detect, _load_data, _request, after_model_read.
  unfold mbind at 1 2 3 4 5 6 7. unfold io_bind, lift. cbn [self MAPPING].
  destruct (host (self w) _ _ _ _) as [e|response]; [done|]. cbn [mbind exn_bind].
  destruct (fill _ _ _ _) as [e|model_data]; [done|]. cbn [mbind exn_bind].
  destruct (decode_model _) as [e|name]; [done|].
  unfold resolved, selected.
  case_bool_decide; reflexivity.
Qed.

Lemma get_spec w :
  get w
  = match _model_name (self w) with
    | Some _ => read_and_decode w
    | None =>
        match detect w with
        | inl e => (inl e, after_model_read w)
        | inr name => read_and_decode (resolved name (after_model_read w))
        end
    end.
Proof.
  unfold get. unfold mbind at 1 2. unfold io_bind, get_self.
  destruct (_model_name (self w)); [done|].
  rewrite resolve_model_spec. by destruct (detect w).
Qed.
Lemma get_resolved_step w :
  is_Some (_model_name (self w)) → io_step quiet w (get w).2.
Proof.
  intros [m Hm]. rewrite get_spec, Hm. apply read_and_decode_steps.
Qed.

Lemma get_unresolved w :
  _model_name (self w) = None →
  match detect w with
  | inl e => get w = (inl e, after_model_read w)
  | inr name => io_step quiet (resolved name (after_model_read w)) (get w).2
  end.
Proof.
  intros Hm. rewrite get_spec, Hm.
  destruct (detect w); [done|]. apply read_and_decode_steps.
Qed.

Lemma get_times_resolved n : ∀ w,
  is_Some (_model_name (self w)) → io_step quiet w (get_times n w).
Proof.
  induction n as [|n IH]; intros w Hm; simpl; [apply io_step_refl|].
  pose proof (get_resolved_step w Hm) as Hstep.
  eapply io_step_trans; [exact Hstep|]. apply IH.
  destruct (io_step_inv _ _ _ Hstep) as (_ & _ & _ & -> & _). done.
Qed.

Lemma get_model_reads w :
  model_reads (trace (self (get w).2))
  = (model_reads (trace (self w))
     + match _model_name (self w) with Some _ => 0 | None => 1 end)%nat.
Proof.
  destruct (_model_name (self w)) as [m|] eqn:Hm.
  - destruct (io_step_inv _ _ _ (get_resolved_step w ltac:(by rewrite Hm)))
      as (_ & _ & _ & _ & _ & t & -> & Ht).
    by rewrite model_reads_app, (model_reads_quiet t Ht).
  - pose proof (get_unresolved w Hm) as Hg.
    destruct (detect w) as [e|name].
    + rewrite Hg. simpl. by rewrite model_reads_app.
    + destruct (io_step_inv _ _ _ Hg) as (_ & _ & _ & _ & _ & t & -> & Ht).
      simpl. by rewrite !model_reads_app, (model_reads_quiet t Ht).
Qed.

Lemma get_model_name w :
  _model_name (self w) = None →
  _model_name (self (get w).2)
  = match detect w with
    | inr name => Some name
    | inl _ => None
    end.
Proof.
  intros Hm. pose proof (get_unresolved w Hm) as Hg.
  destruct (detect w) as [e|name].
  - by rewrite Hg.
  - by destruct (io_step_inv _ _ _ Hg) as (_ & _ & _ & -> & _).
Qed.

(** C8, amended: a poll reads the model range exactly when the session
    has no model name at its start, so on the first poll and again on a
    later one when the earlier polls failed to resolve the model (a poll
    whose model read or decoding fails leaves the session unresolved).
    Once a name is stored, any number of further polls read the model
    range no more and keep the cached name, mapping and requests, and the
    module-level [MAPPING]. *)
Theorem model_read_only_while_unresolved (w : world) (n : nat) :
  model_reads (trace (self (get w).2))
  = (model_reads (trace (self w))
     + match _model_name (self w) with Some _ => 0 | None => 1 end)%nat ∧
  (_model_name (self w) = None →
   _model_name (self (get w).2)
   = match detect w with
     | inr name => Some name
     | inl _ => None
     end) ∧
  (is_Some (_model_name (self w)) →
   model_reads (trace (self (get_times n w))) = model_reads (trace (self w)) ∧
   _model_name (self (get_times n w)) = _model_name (self w) ∧
   _MAPPING (self (get_times n w)) = _MAPPING (self w) ∧
   _REQUESTS (self (get_times n w)) = _REQUESTS (self w) ∧
   MAPPING (get_times n w) = MAPPING w).
Proof.
  split; [apply get_model_reads|]. split; [apply get_model_name|].
  intros Hm.
  destruct (io_step_inv _ _ _ (get_times_resolved n w Hm))
    as (HM & Hmap & Hreq & Hname & _ & t & Ht & Hq).
  split_and!; try done.
  rewrite Ht, model_reads_app, (model_reads_quiet t Hq). lia.
Qed.

Lemma detect_response w response :
  host (self w) (calls (self w)) (Operations_Get Register)
    MODEL_ADDRESS MODEL_LENGTH = inr response →
  (6 ≤ length response)%nat →
  detect w = decode_model (take 6 response).
Proof.
  intros Hh Hlen. unfold detect. rewrite Hh. cbn [mbind exn_bind].
  destruct (load_values response MODEL_ADDRESS MODEL_LENGTH) as (data & -> & Hv);
    [done|].
  cbn [mbind exn_bind]. by rewrite Hv.
Qed.

(** C9, amended: with the six values of the model read decoded to the
    indices [idx], [get] raises [IndexError], and resolves nothing, when
    some index is below -37 or above 36; when all six are within
    [-37 .. 36] it stores the identifier made of their symbols, where an
    index from 0 to 36 names [model_dictionary[i]] and a negative index
    from -37 to -1 names [model_dictionary[i + 37]], as Python's indexing
    from the end gives. *)
Theorem model_detection_index (w : world) (response : list string) (idx : list Z) :
  _model_name (self w) = None →
  host (self w) (calls (self w)) (Operations_Get Register)
    MODEL_ADDRESS MODEL_LENGTH = inr response →
  length idx = 6%nat →
  Forall2 (λ x i, parse_ecoforest_int x = inr i) (take 6 response) idx →
  (Exists (λ i, i < -37 ∨ 37 ≤ i) idx →
   (get w).1 = inl IndexError ∧ _model_name (self (get w).2) = None) ∧
  (Forall (λ i, -37 ≤ i < 37) idx →
   _model_name (self (get w).2) = Some (String.concat "" (symbol <$> idx))) ∧
  (∀ i, 0 ≤ i < 37 → model_dictionary !! Z.to_nat i = Some (symbol i)) ∧
  (∀ i, -37 ≤ i < 0 → model_dictionary !! Z.to_nat (i + 37) = Some (symbol i)).
Proof.
  intros Hm Hh Hlen Hidx.
  assert (6 ≤ length response)%nat as Hresp.
  { apply Forall2_length in Hidx. rewrite length_take in Hidx. lia. }
  pose proof (detect_response w response Hh Hresp) as Hd.
  destruct (decode_model_spec _ _ Hidx) as [Hok Hbad].
  pose proof (get_unresolved w Hm) as Hg.
  pose proof (get_model_name w Hm) as Hn.
  split_and!.
  - intros Hex. rewrite Hd, (Hbad Hex) in Hg, Hn. by rewrite Hg.
  - intros Hall. by rewrite Hd, (Hok Hall) in Hn.
  - intros i Hi.
    assert (Forall (λ i, model_dictionary !! Z.to_nat i = Some (symbol i)) (seqZ 0 37))
      as Hall by (apply (bool_decide_unpack _); vm_compute; exact I).
    rewrite Forall_forall in Hall. apply Hall, elem_of_seqZ. lia.
  - intros i Hi.
    assert (Forall (λ i, model_dictionary !! Z.to_nat (i + 37) = Some (symbol i))
              (seqZ (-37) 37))
      as Hall by (apply (bool_decide_unpack _); vm_compute; exact I).
    rewrite Forall_forall in Hall. apply Hall, elem_of_seqZ. lia.
Qed.
End session.

(** C8, as stated: the model range is read on the first poll only.  The
    heat pump that fails every request leaves the first poll unresolved,
    and the second poll reads the model range again. *)
Lemma model_read_twice_counterexample :
  ¬ (∀ w : world,
       model_reads (trace (self (get_times domestic_catalog hp_catalog 2 w)))
       = model_reads (trace (self (get_times domestic_catalog hp_catalog 1 w)))) ∧
  model_reads
    (trace (self (get_times domestic_catalog hp_catalog 1
                    (World (EcoGeoApi_init domestic_catalog busy_host domestic_catalog)
                       domestic_catalog)))) = 1%nat ∧
  model_reads
    (trace (self (get_times domestic_catalog hp_catalog 2
                    (World (EcoGeoApi_init domestic_catalog busy_host domestic_catalog)
                       domestic_catalog)))) = 2%nat.
Proof.
  split_and!; [|reflexivity|reflexivity].
  intros H.
  specialize (H (World (EcoGeoApi_init domestic_catalog busy_host domestic_catalog)
                   domestic_catalog)).
  vm_compute in H. discriminate H.
Qed.

Lemma model_read_only_while_unresolved_witness :
  model_reads
    (trace (self (get_times domestic_catalog hp_catalog 3
                    (get domestic_catalog hp_catalog
                       (World (EcoGeoApi_init domestic_catalog hp_host domestic_catalog)
                          domestic_catalog)).2))) = 1%nat ∧
  _model_name
    (self (get_times domestic_catalog hp_catalog 3
             (get domestic_catalog hp_catalog
                (World (EcoGeoApi_init domestic_catalog hp_host domestic_catalog)
                   domestic_catalog)).2)) = Some "EATM00".
Proof.
  destruct (model_read_only_while_unresolved domestic_catalog hp_catalog
              (get domestic_catalog hp_catalog
                 (World (EcoGeoApi_init domestic_catalog hp_host domestic_catalog)
                    domestic_catalog)).2 3) as (_ & _ & H).
  destruct H as (Hreads & Hname & _).
  - vm_compute. eexists. reflexivity.
  - split.
    + rewrite Hreads. vm_compute. reflexivity.
    + rewrite Hname. vm_compute. reflexivity.
Defined.

(** C9, as stated: every decoded index that names no symbol of the
    alphabet, every negative index among them, makes detection raise.  The
    register value "FFFF" decodes to -1, and a model read of six such
    values resolves the identifier "ZZZZZZ". *)
Lemma negative_index_counterexample :
  Forall (λ x, parse_ecoforest_int x = inr (-1)) (replicate 6 "FFFF") ∧
  ¬ raises (get domestic_catalog hp_catalog
              (World (EcoGeoApi_init domestic_catalog ffff_host domestic_catalog)
                 domestic_catalog)).1 ∧
  _model_name
    (self (get domestic_catalog hp_catalog
             (World (EcoGeoApi_init domestic_catalog ffff_host domestic_catalog)
                domestic_catalog)).2) = Some "ZZZZZZ".
Proof.
  split_and!.
  - repeat constructor.
  - intros [e He]. vm_compute in He. discriminate He.
  - reflexivity.
Qed.

Lemma model_detection_index_witness :
  _model_name
    (self (get domestic_catalog hp_catalog
             (World (EcoGeoApi_init domestic_catalog ffff_host domestic_catalog)
                domestic_catalog)).2)
  = Some (String.concat "" (symbol <$> replicate 6 (-1))).
Proof.
  refine (proj1 (proj2
    (model_detection_index domestic_catalog hp_catalog
       (World (EcoGeoApi_init domestic_catalog ffff_host domestic_catalog)
          domestic_catalog)
       (replicate 6 "FFFF") (replicate 6 (-1)) _ _ _ _)) _).
  - reflexivity.
  - reflexivity.
  - reflexivity.
  - repeat constructor.
  - repeat constructor; lia.
Defined.

(** C1: a range whose read fails on all three attempts does not end the
    poll.  No failure of a range read leaves [read_ranges], whatever the
    heat pump does; and with the coil range answered and the register range
    failing three times, [get] sleeps 1, 2 and 4 seconds and returns a
    snapshot with the coil's field alone. *)
Theorem exhausted_retries_do_not_propagate :
  (∀ w, returns (read_ranges w).1) ∧
  (get domestic_catalog hp_catalog
     (World (EcoGeoApi_init domestic_catalog register_busy_host domestic_catalog)
        domestic_catalog)).1
  = inr (Some "000000", [("field_a", VBool true)]) ∧
  trace (self (get domestic_catalog hp_catalog
                 (World (EcoGeoApi_init domestic_catalog register_busy_host
                           domestic_catalog)
                    domestic_catalog)).2)
  = [Read ModelRead 2002 5323 6; Read RangeRead 2001 100 1;
     Read RangeRead 2002 200 1; Sleep 1;
     Read RangeRead 2002 200 1; Sleep 2;
     Read RangeRead 2002 200 1; Sleep 4].
Proof.
  split_and!; [apply read_ranges_never_raises|reflexivity|reflexivity].
Qed.

(** ** Several sessions in one process *)

Section process_facts.
Variables _DOMESTIC_MAPPING _HP_MAPPING : mapping.

#[local] Abbreviation get := (get _DOMESTIC_MAPPING _HP_MAPPING).
#[local] Abbreviation poll := (poll _DOMESTIC_MAPPING _HP_MAPPING).
#[local] Abbreviation polls := (polls _DOMESTIC_MAPPING _HP_MAPPING).
#[local] Abbreviation construct := (construct _DOMESTIC_MAPPING).
#[local] Abbreviation step := (step _DOMESTIC_MAPPING _HP_MAPPING).
#[local] Abbreviation run := (run _DOMESTIC_MAPPING _HP_MAPPING).
#[local] Abbreviation resolution := (resolution _DOMESTIC_MAPPING _HP_MAPPING).
#[local] Abbreviation resolutions := (resolutions _DOMESTIC_MAPPING _HP_MAPPING).
#[local] Abbreviation selected_mapping := (selected_mapping _DOMESTIC_MAPPING _HP_MAPPING).

Lemma poll_other i j p :
  j ≠ i → sessions (poll i p).2 !! j = sessions p !! j.
Proof.
  intros Hne. unfold poll. destruct (sessions p !! i); [|done].
  simpl. by apply list_lookup_insert_ne.
Qed.

Lemma polls_other i j n : ∀ p,
  j ≠ i → sessions (polls i n p) !! j = sessions p !! j.
Proof.
  induction n as [|n IH]; intros p Hne; simpl; [done|].
  by rewrite IH, poll_other.
Qed.

Lemma poll_at i p s :
  sessions p !! i = Some s →
  sessions (poll i p).2 !! i = Some (self (get (World s (module_MAPPING p))).2) ∧
  module_MAPPING (poll i p).2 = MAPPING (get (World s (module_MAPPING p))).2.
Proof.
  intros Hs. unfold poll. rewrite Hs. simpl. split; [|done].
  apply list_lookup_insert_eq. by eapply lookup_lt_Some.
Qed.

Lemma poll_absent i p : sessions p !! i = None → (poll i p).2 = p.
Proof. intros Hs. unfold poll. by rewrite Hs. Qed.

(** Polls of a resolved session keep its catalog and the binding. *)
Lemma polls_resolved i n : ∀ p s,
  sessions p !! i = Some s → is_Some (_model_name s) →
  ∃ s', sessions (polls i n p) !! i = Some s' ∧
        _model_name s' = _model_name s ∧
        _MAPPING s' = _MAPPING s ∧
        _REQUESTS s' = _REQUESTS s ∧
        module_MAPPING (polls i n p) = module_MAPPING p.
Proof.
  induction n as [|n IH]; intros p s Hs Hm; simpl; [by exists s|].
  destruct (poll_at i p s Hs) as [Hs1 HM1].
  pose proof (get_resolved_step _DOMESTIC_MAPPING _HP_MAPPING
                (World s (module_MAPPING p)) Hm) as Hstep.
  destruct (io_step_inv _ _ _ Hstep) as (HM & Hmap & Hreq & Hname & _).
  simpl in HM, Hmap, Hreq, Hname.
  destruct (IH _ _ Hs1 ltac:(by rewrite Hname)) as (s' & Hs' & ? & ? & ? & ?).
  exists s'. split_and!; congruence.
Qed.

Lemma polls_binding i n : ∀ p,
  module_MAPPING (polls i n p) = module_MAPPING p ∨
  ∃ s s', sessions p !! i = Some s ∧ _model_name s = None ∧
          sessions (polls i n p) !! i = Some s' ∧
          is_Some (_model_name s') ∧
          module_MAPPING (polls i n p) = _MAPPING s'.
Proof.
  induction n as [|n IH]; intros p; simpl; [by left|].
  destruct (sessions p !! i) as [s|] eqn:Hs.
  2: { rewrite (poll_absent i p Hs). destruct (IH p) as [?|(s & ? & ? & _)];
         [by left|congruence]. }
  destruct (poll_at i p s Hs) as [Hs1 HM1].
  destruct (_model_name s) as [m|] eqn:Hm.
  - left.
    pose proof (get_resolved_step _DOMESTIC_MAPPING _HP_MAPPING
                  (World s (module_MAPPING p)) ltac:(by simpl; rewrite Hm)) as Hstep.
    destruct (io_step_inv _ _ _ Hstep) as (HM & _ & _ & Hname & _).
    simpl in HM, Hname.
    destruct (polls_resolved i n _ _ Hs1 ltac:(by rewrite Hname, Hm))
      as (s' & _ & _ & _ & _ & HM').
    congruence.
  - pose proof (get_unresolved _DOMESTIC_MAPPING _HP_MAPPING
                  (World s (module_MAPPING p)) Hm) as Hg.
    destruct (detect (World s (module_MAPPING p))) as [e|name].
    + rewrite Hg in Hs1, HM1. simpl in Hs1, HM1.
      destruct (IH (poll i p).2) as [HM'|(s1 & s' & Hs1' & _ & Hs' & Hn' & HM')].
      * left. congruence.
      * right. exists s, s'. split_and!; try done.
    + destruct (io_step_inv _ _ _ Hg) as (HM & Hmap & _ & Hname & _).
      simpl in HM, Hmap, Hname.
      destruct (polls_resolved i n _ _ Hs1 ltac:(by rewrite Hname))
        as (s' & Hs' & Hn' & Hmap' & _ & HM').
      right. exists s, s'. split_and!; try done.
      * rewrite Hn', Hname. by eexists.
      * congruence.
Qed.

Lemma polls_absent i n p : sessions p !! i = None → polls i n p = p.
Proof.
  intros Hs. induction n as [|n IH]; simpl; [done|]. by rewrite (poll_absent i p Hs).
Qed.

(** The poll that resolves the model of a session. *)
Lemma poll_resolves i p s name :
  sessions p !! i = Some s → _model_name s = None →
  detect (World s (module_MAPPING p)) = inr name →
  module_MAPPING (poll i p).2 = selected_mapping name ∧
  ∃ s', sessions (poll i p).2 !! i = Some s' ∧
        _model_name s' = Some name ∧
        _MAPPING s' = selected_mapping name ∧
        _REQUESTS s' = (selected _DOMESTIC_MAPPING _HP_MAPPING name).2.
Proof.
  intros Hs Hm Hd. destruct (poll_at i p s Hs) as [Hs1 HM1].
  pose proof (get_unresolved _DOMESTIC_MAPPING _HP_MAPPING
                (World s (module_MAPPING p)) Hm) as Hg.
  rewrite Hd in Hg.
  destruct (io_step_inv _ _ _ Hg) as (HM & Hmap & Hreq & Hname & _).
  simpl in HM, Hmap, Hreq, Hname.
  assert ((selected _DOMESTIC_MAPPING _HP_MAPPING name).1 = selected_mapping name)
    as Hsel by (unfold selected, selected_mapping; by case_bool_decide).
  split; [congruence|]. eexists. split; [exact Hs1|]. split_and!; congruence.
Qed.

(** The poll whose model read or detection fails. *)
Lemma poll_fails i p s e :
  sessions p !! i = Some s → _model_name s = None →
  detect (World s (module_MAPPING p)) = inl e →
  module_MAPPING (poll i p).2 = module_MAPPING p ∧
  ∃ s', sessions (poll i p).2 !! i = Some s' ∧ _model_name s' = None.
Proof.
  intros Hs Hm Hd. destruct (poll_at i p s Hs) as [Hs1 HM1].
  pose proof (get_unresolved _DOMESTIC_MAPPING _HP_MAPPING
                (World s (module_MAPPING p)) Hm) as Hg.
  rewrite Hd in Hg. rewrite Hg in Hs1, HM1. simpl in Hs1, HM1.
  split; [done|]. eexists. split; [exact Hs1|done].
Qed.

Lemma poll_resolved i p s :
  sessions p !! i = Some s → is_Some (_model_name s) →
  module_MAPPING (poll i p).2 = module_MAPPING p.
Proof.
  intros Hs Hm. destruct (polls_resolved i 1 p s Hs Hm) as (_ & _ & _ & _ & _ & HM).
  exact HM.
Qed.

(** Polls that take a session from unresolved to resolved leave the
    binding at the mapping that the resolved name selects. *)
Lemma polls_rebind i n : ∀ p s s' name,
  sessions p !! i = Some s → _model_name s = None →
  sessions (polls i n p) !! i = Some s' → _model_name s' = Some name →
  module_MAPPING (polls i n p) = selected_mapping name ∧
  _MAPPING s' = selected_mapping name.
Proof.
  induction n as [|n IH]; intros p s s' name Hs Hm Hs' Hname; simpl in *.
  { congruence. }
  destruct (detect (World s (module_MAPPING p))) as [e|name0] eqn:Hd.
  - destruct (poll_fails i p s e Hs Hm Hd) as (_ & s1 & Hs1 & Hm1).
    by eapply IH.
  - destruct (poll_resolves i p s name0 Hs Hm Hd) as (HM & s1 & Hs1 & Hm1 & Hmap1 & _).
    destruct (polls_resolved i n _ s1 Hs1 ltac:(by rewrite Hm1))
      as (s2 & Hs2 & Hn2 & Hmap2 & _ & HM2).
    assert (s2 = s') as -> by congruence.
    assert (name0 = name) as -> by congruence.
    split; congruence.
Qed.

(** C7, amended: resolving its model, a session rebinds the module-level
    [MAPPING] to the mapping it selected: the poll that resolves a name
    leaves the binding, and the mapping of the session, at the HP mapping
    when the name is in [HP_MODELS] and at the domestic mapping otherwise,
    and so do polls that take the session from unresolved to resolved.
    Polls of one session leave the objects of the other sessions as they
    are and change the binding through that resolution only: the binding
    is unchanged when the session was resolved before, is still unresolved
    after, or does not exist.  A session constructed afterwards takes its
    mapping from the binding as it then is. *)
Theorem polls_frame (p : process) (i n : nat) (h : transport) :
  (∀ j, j ≠ i → sessions (polls i n p) !! j = sessions p !! j) ∧
  (module_MAPPING (polls i n p) = module_MAPPING p ∨
   ∃ s s', sessions p !! i = Some s ∧ _model_name s = None ∧
           sessions (polls i n p) !! i = Some s' ∧
           is_Some (_model_name s') ∧
           module_MAPPING (polls i n p) = _MAPPING s') ∧
  last (sessions (construct h (polls i n p)))
  = Some (EcoGeoApi_init _DOMESTIC_MAPPING h (module_MAPPING (polls i n p))) ∧
  (∀ s name,
     sessions p !! i = Some s → _model_name s = None →
     detect (World s (module_MAPPING p)) = inr name →
     module_MAPPING (poll i p).2
     = (if bool_decide (name ∈ HP_MODELS) then _HP_MAPPING else _DOMESTIC_MAPPING) ∧
     ∃ s', sessions (poll i p).2 !! i = Some s' ∧
           _model_name s' = Some name ∧
           _MAPPING s' = module_MAPPING (poll i p).2) ∧
  (∀ s s' name,
     sessions p !! i = Some s → _model_name s = None →
     sessions (polls i n p) !! i = Some s' → _model_name s' = Some name →
     module_MAPPING (polls i n p)
     = (if bool_decide (name ∈ HP_MODELS) then _HP_MAPPING else _DOMESTIC_MAPPING) ∧
     _MAPPING s' = module_MAPPING (polls i n p)) ∧
  (∀ s, sessions p !! i = Some s → is_Some (_model_name s) →
        module_MAPPING (polls i n p) = module_MAPPING p) ∧
  (∀ s', sessions (polls i n p) !! i = Some s' → _model_name s' = None →
         module_MAPPING (polls i n p) = module_MAPPING p) ∧
  (sessions p !! i = None → polls i n p = p).
Proof.
  split_and!.
  - intros j Hne. by apply polls_other.
  - apply polls_binding.
  - unfold construct. simpl. apply last_snoc.
  - intros s name Hs Hm Hd.
    destruct (poll_resolves i p s name Hs Hm Hd) as (HM & s' & Hs' & Hn & Hmap & _).
    split; [exact HM|]. exists s'. split_and!; congruence.
  - intros s s' name Hs Hm Hs' Hn.
    destruct (polls_rebind i n p s s' name Hs Hm Hs' Hn) as [HM Hmap].
    split; [exact HM|congruence].
  - intros s Hs Hm.
    by destruct (polls_resolved i n p s Hs Hm) as (_ & _ & _ & _ & _ & HM).
  - intros s' Hs' Hn.
    destruct (polls_binding i n p) as [HM|(s & s1 & _ & _ & Hs1 & [m Hm] & _)]; [done|].
    congruence.
  - apply polls_absent.
Qed.

(** ** The binding over the life of the process *)

(** One operation leaves the binding as it was, unless it resolves a
    model. *)
Lemma step_binding p o :
  module_MAPPING (step p o)
  = match resolution o p with
    | Some name => selected_mapping name
    | None => module_MAPPING p
    end.
Proof.
  destruct o as [h|i]; [done|].
  unfold step, resolution, newly_resolved.
  destruct (sessions p !! i) as [s|] eqn:Hs; [|by rewrite (poll_absent i p Hs)].
  destruct (_model_name s) as [m|] eqn:Hm.
  - apply (poll_resolved i p s Hs). by rewrite Hm.
  - destruct (detect (World s (module_MAPPING p))) as [e|name] eqn:Hd.
    + destruct (poll_fails i p s e Hs Hm Hd) as (HM & s' & -> & Hn).
      simpl. by rewrite Hn.
    + destruct (poll_resolves i p s name Hs Hm Hd) as (HM & s' & -> & Hn & _).
      simpl. by rewrite Hn.
Qed.

Lemma run_binding ops : ∀ p,
  module_MAPPING (run ops p)
  = match last (resolutions ops p) with
    | Some name => selected_mapping name
    | None => module_MAPPING p
    end.
Proof.
  induction ops as [|o ops IH]; intros p; [done|].
  change (resolutions (o :: ops) p)
    with (option_list (resolution o p) ++ resolutions ops (step p o)).
  change (run (o :: ops) p) with (run ops (step p o)).
  rewrite IH, last_app. destruct (last (resolutions ops (step p o))); [done|].
  rewrite step_binding. by destruct (resolution o p).
Qed.

(** C10, amended: a new session has the domestic requests, no model name,
    and the mapping that the module-level [MAPPING] holds at that time; and
    after any operations of the process that binding is the mapping selected
    by the model resolved last, by whichever session, or the binding the
    process started with when no model has been resolved.  So a session
    constructed when the last resolution was of an HP model starts with the
    HP mapping and the domestic requests, one constructed when it was of
    another model starts with the domestic mapping, and one constructed in
    a freshly loaded module before any resolution starts with the domestic
    mapping; and the poll in which a session resolves its own model sets
    its mapping and its requests to the pair that the model selects. *)
Theorem new_session_binding (ops : list operation) (p : process) (h : transport) :
  last (sessions (construct h (run ops p)))
  = Some (Api (module_MAPPING (run ops p))
              (_DOMESTIC_REQUESTS _DOMESTIC_MAPPING) None h 0 []) ∧
  module_MAPPING (run ops p)
  = match last (resolutions ops p) with
    | Some name =>
        if bool_decide (name ∈ HP_MODELS) then _HP_MAPPING else _DOMESTIC_MAPPING
    | None => module_MAPPING p
    end ∧
  (∀ name, last (resolutions ops p) = Some name → name ∈ HP_MODELS →
     last (sessions (construct h (run ops p)))
     = Some (Api _HP_MAPPING (_DOMESTIC_REQUESTS _DOMESTIC_MAPPING) None h 0 [])) ∧
  (∀ name, last (resolutions ops p) = Some name → ¬ (name ∈ HP_MODELS) →
     last (sessions (construct h (run ops p)))
     = Some (Api _DOMESTIC_MAPPING (_DOMESTIC_REQUESTS _DOMESTIC_MAPPING) None h 0 [])) ∧
  (resolutions ops (loaded _DOMESTIC_MAPPING) = [] →
     last (sessions (construct h (run ops (loaded _DOMESTIC_MAPPING))))
     = Some (Api _DOMESTIC_MAPPING (_DOMESTIC_REQUESTS _DOMESTIC_MAPPING) None h 0 [])) ∧
  (∀ w name',
     _model_name (self w) = None →
     _model_name (self (get w).2) = Some name' →
     (_MAPPING (self (get w).2), _REQUESTS (self (get w).2))
     = selected _DOMESTIC_MAPPING _HP_MAPPING name' ∧
     MAPPING (get w).2 = (selected _DOMESTIC_MAPPING _HP_MAPPING name').1).
Proof.
  assert (∀ q, last (sessions (construct h q))
               = Some (Api (module_MAPPING q)
                         (_DOMESTIC_REQUESTS _DOMESTIC_MAPPING) None h 0 [])) as Hnew.
  { intros q. unfold construct. simpl. apply last_snoc. }
  split_and!.
  - apply Hnew.
  - apply run_binding.
  - intros name Hlast Hhp. rewrite Hnew, run_binding, Hlast.
    unfold selected_mapping. by rewrite bool_decide_eq_true_2.
  - intros name Hlast Hhp. rewrite Hnew, run_binding, Hlast.
    unfold selected_mapping. by rewrite bool_decide_eq_false_2.
  - intros Hnone. by rewrite Hnew, run_binding, Hnone.
  - intros w name' Hw Hw'.
    pose proof (get_unresolved _DOMESTIC_MAPPING _HP_MAPPING w Hw) as Hg.
    destruct (detect w) as [e|name0].
    + rewrite Hg in Hw'. simpl in Hw'. congruence.
    + destruct (io_step_inv _ _ _ Hg) as (-> & -> & -> & Hn & _).
      simpl in *. assert (name0 = name') as -> by congruence.
      by destruct (selected _ _ name').
Qed.
End process_facts.

(** C7, as stated: whatever one session does, the mapping state that the
    other sessions observe is unchanged.  After one poll of a session whose
    heat pump is an HP model, the module-level binding is the HP mapping,
    and a session constructed then starts from it. *)
Lemma session_isolation_counterexample :
  ¬ (∀ (p : process) (i n : nat) (h : transport),
       module_MAPPING (polls domestic_catalog hp_catalog i n p) = module_MAPPING p ∧
       _MAPPING <$> last (sessions (construct domestic_catalog h
                                      (polls domestic_catalog hp_catalog i n p)))
       = _MAPPING <$> last (sessions (construct domestic_catalog h p))).
Proof.
  intros H.
  destruct (H (construct domestic_catalog hp_host (loaded domestic_catalog))
              0%nat 1%nat busy_host) as [HM _].
  vm_compute in HM. discriminate HM.
Qed.

Lemma polls_frame_witness :
  sessions (polls domestic_catalog hp_catalog 0 1
              (construct domestic_catalog busy_host
                 (construct domestic_catalog hp_host (loaded domestic_catalog))))
    !! 1%nat
  = Some (EcoGeoApi_init domestic_catalog busy_host domestic_catalog) ∧
  module_MAPPING
    (polls domestic_catalog hp_catalog 0 1
       (construct domestic_catalog busy_host
          (construct domestic_catalog hp_host (loaded domestic_catalog))))
  = hp_catalog.
Proof.
  destruct (polls_frame domestic_catalog hp_catalog
              (construct domestic_catalog busy_host
                 (construct domestic_catalog hp_host (loaded domestic_catalog)))
              0 1 busy_host) as (Hother & _ & _ & Hrebind & _).
  split.
  - rewrite Hother by lia. reflexivity.
  - destruct (Hrebind (EcoGeoApi_init domestic_catalog hp_host domestic_catalog)
                "EATM00") as [HM _]; [reflexivity|reflexivity|reflexivity|].
    exact HM.
Defined.

(** C10, as stated: a session constructed after another session resolved
    an HP model begins with the HP mapping.  One session resolves the HP
    model "EATM00", then a second one resolves "ZZZZZZ", which selects the
    domestic mapping and rebinds [MAPPING] to it; a session constructed
    then begins with the domestic mapping. *)
Lemma new_session_after_hp_counterexample :
  ¬ (∀ (ops : list operation) (i : nat) (s : EcoGeoApi) (name : string)
       (h : transport),
       sessions (run domestic_catalog hp_catalog ops (loaded domestic_catalog)) !! i
       = Some s →
       _model_name s = Some name → name ∈ HP_MODELS →
       _MAPPING <$> last (sessions (construct domestic_catalog h
                                      (run domestic_catalog hp_catalog ops
                                         (loaded domestic_catalog))))
       = Some hp_catalog) ∧
  resolutions domestic_catalog hp_catalog
    [Construct hp_host; Construct ffff_host; Poll 0; Poll 1]
    (loaded domestic_catalog) = ["EATM00"; "ZZZZZZ"] ∧
  _MAPPING <$> last (sessions (construct domestic_catalog busy_host
                                 (run domestic_catalog hp_catalog
                                    [Construct hp_host; Construct ffff_host;
                                     Poll 0; Poll 1]
                                    (loaded domestic_catalog))))
  = Some domestic_catalog.
Proof.
  split_and!; [|reflexivity|reflexivity].
  intros Hall.
  assert (_MAPPING <$> last (sessions (construct domestic_catalog busy_host
                                         (run domestic_catalog hp_catalog
                                            [Construct hp_host; Construct ffff_host;
                                             Poll 0; Poll 1]
                                            (loaded domestic_catalog))))
          = Some hp_catalog) as Hs.
  { eapply (Hall _ 0%nat _ "EATM00" busy_host).
    - reflexivity.
    - reflexivity.
    - apply (bool_decide_unpack _). vm_compute. exact I. }
  vm_compute in Hs. discriminate Hs.
Qed.

Lemma new_session_binding_witness :
  last (sessions (construct domestic_catalog busy_host
                    (run domestic_catalog hp_catalog [Construct hp_host; Poll 0]
                       (loaded domestic_catalog))))
  = Some (Api hp_catalog (_DOMESTIC_REQUESTS domestic_catalog) None busy_host 0 []) ∧
  last (sessions (construct domestic_catalog busy_host
                    (run domestic_catalog hp_catalog
                       [Construct hp_host; Construct ffff_host; Poll 0; Poll 1]
                       (loaded domestic_catalog))))
  = Some (Api domestic_catalog (_DOMESTIC_REQUESTS domestic_catalog) None
            busy_host 0 []).
Proof.
  split.
  - destruct (new_session_binding domestic_catalog hp_catalog
                [Construct hp_host; Poll 0] (loaded domestic_catalog) busy_host)
      as (_ & _ & Hhp & _).
    apply (Hhp "EATM00"); [reflexivity|].
    apply (bool_decide_unpack _). vm_compute. exact I.
  - destruct (new_session_binding domestic_catalog hp_catalog
                [Construct hp_host; Construct ffff_host; Poll 0; Poll 1]
                (loaded domestic_catalog) busy_host)
      as (_ & _ & _ & Hdomestic & _).
    apply (Hdomestic "ZZZZZZ"); [reflexivity|].
    apply (bool_decide_unpack _). vm_compute. exact I.
Defined.

(** ** The response parser *)

Lemma chars_app s1 s2 : chars (s1 +:+ s2) = chars s1 ++ chars s2.
Proof. unfold chars. induction s1 as [|c s1 IH]; simpl; [done|]. by rewrite IH. Qed.

Lemma chars_str l : chars (str l) = l.
Proof. apply list_ascii_of_string_of_list_ascii. Qed.

Lemma str_chars s : str (chars s) = s.
Proof. apply string_of_list_ascii_of_string. Qed.

Lemma split_chars_free sep l : sep ∉ l → split_chars sep l = [l].
Proof.
  induction l as [|c l IH]; [done|].
  rewrite not_elem_of_cons. intros [Hc Hl]. cbn [split_chars].
  rewrite decide_False by done. by rewrite IH.
Qed.

Lemma split_chars_app sep l rest :
  sep ∉ l → split_chars sep (l ++ sep :: rest) = l :: split_chars sep rest.
Proof.
  induction l as [|c l IH].
  - intros _. cbn [app split_chars]. by rewrite decide_True.
  - rewrite not_elem_of_cons. intros [Hc Hl]. cbn [app split_chars].
    rewrite decide_False by done. by rewrite IH.
Qed.


Lemma split_chars_concat sep (ls : list string) :
  ls ≠ [] → Forall (λ v, sep ∉ chars v) ls →
  split_chars sep (chars (String.concat (String sep "") ls)) = chars <$> ls.
Proof.
  induction ls as [|x ls IH]; [done|]. intros _ [Hx Hls]%Forall_cons.
  destruct ls as [|y ls].
  - simpl. by rewrite split_chars_free.
  - change (String.concat (String sep "") (x :: y :: ls))
      with (x +:+ String sep (String.concat (String sep "") (y :: ls))).
    rewrite chars_app. change (chars (String sep ?s)) with (sep :: chars s).
    rewrite split_chars_app by done. rewrite IH by done. done.
Qed.

Lemma concat_free c sep (ls : list string) :
  c ≠ sep → Forall (λ v, c ∉ chars v) ls →
  c ∉ chars (String.concat (String sep "") ls).
Proof.
  intros Hne. induction 1 as [|x ls Hx Hls IH]; [apply not_elem_of_nil|].
  destruct ls as [|y ls]; [done|].
  change (String.concat (String sep "") (x :: y :: ls))
    with (x +:+ String sep (String.concat (String sep "") (y :: ls))).
  rewrite chars_app. change (chars (String sep ?s)) with (sep :: chars s).
  rewrite not_elem_of_app, not_elem_of_cons. done.
Qed.

(** The lines of a response whose first two lines are known. *)
Lemma split_two_lines l0 l1 more :
  newline ∉ l0 → newline ∉ l1 →
  ∃ tl, split_chars newline (l0 ++ newline :: l1 ++ chars (rest_of_response more))
        = l0 :: l1 :: tl.
Proof.
  intros H0 H1. rewrite split_chars_app by done.
  destruct more as [r|]; simpl.
  - change (chars (String newline r)) with (newline :: chars r).
    rewrite split_chars_app by done. by eexists.
  - change (chars "") with (@nil ascii). rewrite app_nil_r, split_chars_free by done.
    by eexists.
Qed.

Lemma split_first_line l0 more :
  newline ∉ l0 →
  ∃ tl, split_chars newline (l0 ++ chars (rest_of_response more)) = l0 :: tl.
Proof.
  intros H0. destruct more as [r|]; simpl.
  - change (chars (String newline r)) with (newline :: chars r).
    rewrite split_chars_app by done. by eexists.
  - change (chars "") with (@nil ascii). rewrite app_nil_r, split_chars_free by done.
    by eexists.
Qed.

Lemma GEO_ERRORS_free a :
  a ∈ GEO_ERRORS → ¬ ("="%char ∈ chars a) ∧ newline ∉ chars a.
Proof.
  assert (Forall (λ a, ¬ ("="%char ∈ chars a) ∧ newline ∉ chars a) GEO_ERRORS) as Hall
    by (apply (bool_decide_unpack _); vm_compute; exact I).
  rewrite Forall_forall in Hall. apply Hall.
Qed.

Lemma list_index_0 {A} (x : A) l : list_index (x :: l) 0 = inr x.
Proof. reflexivity. Qed.

Lemma list_index_1 {A} (x y : A) l : list_index (x :: y :: l) 1 = inr y.
Proof. reflexivity. Qed.

Lemma list_index_1_single {A} (x : A) : list_index [x] 1 = inl IndexError.
Proof. reflexivity. Qed.

(** X1. A response whose first line is one of the four names with status 0
    and whose second line joins two leading pieces and the values with
    ["&"] parses to exactly the values, whatever follows the second line,
    as long as no piece contains ["&"] or a line break. *)
Theorem parse_well_formed (a x y : string) (values : list string)
    (more : option string) :
  a ∈ GEO_ERRORS →
  Forall (λ v, ¬ ("&"%char ∈ chars v) ∧ newline ∉ chars v) (x :: y :: values) →
  _parse (a +:+ "=0"
          +:+ String newline (String.concat "&" (x :: y :: values)
                              +:+ rest_of_response more))
  = inr values.
Proof.
  intros Ha Hv. destruct (GEO_ERRORS_free a Ha) as [Heq Hnl].
  apply Forall_and in Hv as [Hamp Hvnl].
  unfold _parse, split.
  rewrite !chars_app. change (chars (String newline ?s)) with (newline :: chars s).
  rewrite chars_app, app_assoc.
  destruct (split_two_lines (chars a ++ chars "=0")
              (chars (String.concat "&" (x :: y :: values))) more) as [tl ->].
  { rewrite not_elem_of_app. split; [done|].
    apply (bool_decide_unpack _). vm_compute. exact I. }
  { apply concat_free; [|done]. apply (bool_decide_unpack _). vm_compute. exact I. }
  rewrite !fmap_cons, list_index_0, list_index_1. cbn [mbind exn_bind].
  rewrite !chars_str.
  change (chars "=0") with ("="%char :: chars "0").
  rewrite split_chars_app by done.
  rewrite (split_chars_free "="%char (chars "0"))
    by (apply (bool_decide_unpack _); vm_compute; exact I).
  rewrite !fmap_cons, fmap_nil, !str_chars.
  rewrite bool_decide_eq_true_2 by done. simpl (negb _ || negb _). cbv iota.
  cbn [mret exn_ret].
  rewrite (split_chars_concat "&"%char (x :: y :: values)) by done.
  rewrite <- list_fmap_compose.
  rewrite (list_fmap_ext (str ∘ chars) id (x :: y :: values))
    by (intros; apply str_chars).
  by rewrite list_fmap_id.
Qed.

Lemma parse_well_formed_witness :
  _parse ("error_geo_get_reg" +:+ "=0"
          +:+ String newline (String.concat "&" ["dir=5323"; "num=2"; "000F"; "000B"]
                              +:+ rest_of_response (Some "")))
  = inr ["000F"; "000B"].
Proof.
  apply (parse_well_formed "error_geo_get_reg" "dir=5323" "num=2" ["000F"; "000B"]
           (Some "")).
  - apply (bool_decide_unpack _). vm_compute. exact I.
  - apply (bool_decide_unpack _). vm_compute. exact I.
Defined.

(** X2. When the first line of a response is [a=b], [_parse] raises the
    "bad response" exception, carrying the whole response, as soon as [a]
    is not one of the four names or [b] is not "0"; and a response that
    passes this check but has no second line raises an [IndexError]. *)
Theorem parse_status_check (a b : string) (more : option string) :
  ¬ ("="%char ∈ chars a) → ¬ ("="%char ∈ chars b) →
  newline ∉ chars a → newline ∉ chars b →
  (a ∉ GEO_ERRORS ∨ b ≠ "0" →
   _parse (a +:+ String "="%char (b +:+ rest_of_response more))
   = inl (RequestError
            ("bad response: "
             +:+ (a +:+ String "="%char (b +:+ rest_of_response more))))) ∧
  (a ∈ GEO_ERRORS → b = "0" → more = None →
   _parse (a +:+ String "="%char (b +:+ rest_of_response more)) = inl IndexError).
Proof.
  intros Haeq Hbeq Hanl Hbnl.
  assert (newline ∉ chars a ++ "="%char :: chars b) as Hline.
  { rewrite not_elem_of_app, not_elem_of_cons. by split_and!. }
  assert (∃ tl, split newline (a +:+ String "="%char (b +:+ rest_of_response more))
                = str (chars a ++ "="%char :: chars b) :: (str <$> tl)
                ∧ (more = None → tl = [])) as (tl & Hlines & Htl).
  { unfold split. rewrite chars_app.
    change (chars (String "="%char ?s)) with ("="%char :: chars s).
    rewrite chars_app.
    replace (chars a ++ "="%char :: chars b ++ chars (rest_of_response more))
      with ((chars a ++ "="%char :: chars b) ++ chars (rest_of_response more))
      by (by rewrite <- app_assoc).
    destruct more as [r|]; simpl.
    - change (chars (String newline r)) with (newline :: chars r).
      rewrite split_chars_app by done. eexists. split; [by rewrite fmap_cons|done].
    - change (chars "") with (@nil ascii).
      rewrite app_nil_r, split_chars_free by done. by exists []. }
  assert (split "="%char (str (chars a ++ "="%char :: chars b)) = [a; b]) as Hsplit.
  { unfold split. rewrite chars_str, split_chars_app by done.
    rewrite split_chars_free by done.
    by rewrite !fmap_cons, fmap_nil, !str_chars. }
  unfold _parse. rewrite Hlines, list_index_0. cbn [mbind exn_bind].
  rewrite Hsplit.
  split.
  - intros Hbad.
    assert (negb (bool_decide (a ∈ GEO_ERRORS)) || negb (b =? "0")%string = true) as ->;
      [|done].
    destruct Hbad as [Ha|Hb].
    + by rewrite bool_decide_eq_false_2.
    + apply orb_true_iff. right. apply negb_true_iff. by apply String.eqb_neq.
  - intros Ha -> Hmore.
    rewrite bool_decide_eq_true_2 by done. simpl (negb _ || negb _). cbv iota.
    rewrite (Htl Hmore). by rewrite fmap_nil, list_index_1_single.
Qed.

Lemma parse_status_check_witness :
  _parse ("error_geo_get_reg" +:+ String "="%char ("1" +:+ rest_of_response (Some "x")))
  = inl (RequestError
           ("bad response: "
            +:+ ("error_geo_get_reg"
                 +:+ String "="%char ("1" +:+ rest_of_response (Some "x"))))).
Proof.
  refine (proj1 (parse_status_check "error_geo_get_reg" "1" (Some "x") _ _ _ _) _).
  - apply (bool_decide_unpack _). vm_compute. exact I.
  - apply (bool_decide_unpack _). vm_compute. exact I.
  - apply (bool_decide_unpack _). vm_compute. exact I.
  - apply (bool_decide_unpack _). vm_compute. exact I.
  - right. discriminate.
Defined.

Lemma split_chars_length sep l :
  length (split_chars sep l) = S (length (filter (λ c, c = sep) l)).
Proof.
  induction l as [|c l IH]; [done|]. cbn [split_chars].
  case_decide as Hc.
  - rewrite filter_cons_True by done. simpl. by rewrite IH.
  - rewrite filter_cons_False by done.
    destruct (split_chars sep l); simpl in *; [done|lia].
Qed.

(** X3. A response whose first line does not contain exactly one ["="]
    cannot be unpacked into the two parts: [_parse] raises a [ValueError],
    before any check of the status. *)
Theorem parse_first_line_shape (line0 : string) (more : option string) :
  newline ∉ chars line0 →
  length (filter (λ c, c = "="%char) (chars line0)) ≠ 1%nat →
  _parse (line0 +:+ rest_of_response more) = inl ValueError.
Proof.
  intros Hnl Hcount.
  assert (∃ tl, split newline (line0 +:+ rest_of_response more) = line0 :: tl)
    as [tl Hlines].
  { unfold split. rewrite chars_app.
    destruct (split_first_line (chars line0) more Hnl) as [tl ->].
    rewrite fmap_cons, str_chars. by eexists. }
  unfold _parse. rewrite Hlines, list_index_0. cbn [mbind exn_bind].
  unfold split.
  pose proof (split_chars_length "="%char (chars line0)) as Hlen.
  destruct (split_chars "="%char (chars line0)) as [|p1 [|p2 [|p3 ps]]];
    simpl in *; try done. lia.
Qed.

Lemma parse_first_line_shape_witness :
  _parse ("error_geo_get_reg" +:+ rest_of_response (Some "dir=1&num=1&0"))
  = inl ValueError.
Proof.
  apply (parse_first_line_shape "error_geo_get_reg" (Some "dir=1&num=1&0")).
  - apply (bool_decide_unpack _). vm_compute. exact I.
  - vm_compute. lia.
Defined.

(** ** Slugs *)

Lemma underscore_not_slug_char : is_slug_char "_"%char = false.
Proof. reflexivity. Qed.

Lemma lower_char_slug c : slug_text_char c → lower_char c = c.
Proof.
  unfold slug_text_char, is_slug_char, lower_char.
  intros [H| ->]; [|reflexivity].
  apply orb_true_iff in H. rewrite !between_spec in H.
  destruct (between 65 90 (code c)) eqn:E; [|done].
  apply between_spec in E. lia.
Qed.

Lemma sub_runs_chars s : ∀ b, Forall slug_text_char (sub_runs b s).
Proof.
  induction s as [|c s IH]; intros b; simpl; [constructor|].
  destruct (is_slug_char c) eqn:Hc.
  - constructor; [by left|apply IH].
  - destruct b; [apply IH|]. constructor; [by right|apply IH].
Qed.

Lemma sub_runs_head s : head (sub_runs true s) ≠ Some "_"%char.
Proof.
  induction s as [|c s IH]; simpl; [done|].
  destruct (is_slug_char c) eqn:Hc; [|done].
  simpl. intros [= ->]. by rewrite underscore_not_slug_char in Hc.
Qed.

Lemma sub_runs_no_double s : ∀ b, no_double (sub_runs b s).
Proof.
  induction s as [|c s IH]; intros b; simpl; [done|].
  destruct (is_slug_char c) eqn:Hc.
  - split; [|apply IH]. intros ->. by rewrite underscore_not_slug_char in Hc.
  - destruct b; [apply IH|]. split; [|apply IH]. intros _. apply sub_runs_head.
Qed.

Lemma lstrip_suffix c l : ∃ p, l = p ++ lstrip c l.
Proof.
  induction l as [|x l [p IH]]; simpl; [by exists []|].
  case_decide; [|by exists []]. exists (x :: p). simpl. by f_equal.
Qed.

Lemma lstrip_head c l : head (lstrip c l) ≠ Some c.
Proof.
  induction l as [|x l IH]; simpl; [done|].
  case_decide; [done|]. simpl. congruence.
Qed.

Lemma lstrip_id c l : head l ≠ Some c → lstrip c l = l.
Proof. destruct l as [|x l]; simpl; [done|]. intros H. by rewrite decide_False by congruence. Qed.

Lemma no_double_app_r p l : no_double (p ++ l) → no_double l.
Proof. induction p as [|x p IH]; simpl; [done|]. intros [_ H]. by apply IH. Qed.

Lemma no_double_snoc l c :
  no_double l → (c = "_"%char → last l ≠ Some "_"%char) → no_double (l ++ [c]).
Proof.
  induction l as [|x l IH]; simpl; intros Hl Hc.
  - done.
  - destruct Hl as [Hx Hl]. split.
    + intros ->. destruct l as [|y l]; simpl in *.
      * intros [= ->]. by apply Hc.
      * by apply Hx.
    + apply IH; [done|]. intros ->. destruct l as [|y l]; [done|].
      specialize (Hc eq_refl). by rewrite last_cons_cons in Hc.
Qed.

Lemma no_double_reverse l : no_double l → no_double (reverse l).
Proof.
  induction l as [|x l IH]; [done|]. simpl. intros [Hx Hl].
  rewrite reverse_cons. apply no_double_snoc; [by apply IH|].
  intros ->. rewrite last_reverse. by apply Hx.
Qed.

Lemma last_suffix {A} (p l : list A) x : last l = Some x → last (p ++ l) = Some x.
Proof. intros H. rewrite last_app, H. done. Qed.

(** The shape of what [strip] leaves of the substituted name. *)
Lemma strip_shape l :
  Forall slug_text_char l → no_double l →
  Forall slug_text_char (strip "_"%char l) ∧
  no_double (strip "_"%char l) ∧
  head (strip "_"%char l) ≠ Some "_"%char ∧
  last (strip "_"%char l) ≠ Some "_"%char.
Proof.
  intros Hall Hnd. unfold strip.
  destruct (lstrip_suffix "_"%char l) as [p1 Hp1].
  destruct (lstrip_suffix "_"%char (reverse (lstrip "_"%char l))) as [p2 Hp2].
  assert (Forall slug_text_char (lstrip "_"%char l)) as Hall1.
  { rewrite Hp1 in Hall. by apply Forall_app in Hall as [_ ?]. }
  assert (no_double (lstrip "_"%char l)) as Hnd1.
  { rewrite Hp1 in Hnd. by eapply no_double_app_r. }
  assert (Forall slug_text_char (lstrip "_"%char (reverse (lstrip "_"%char l)))) as Hall2.
  { apply Forall_reverse in Hall1. rewrite Hp2 in Hall1.
    by apply Forall_app in Hall1 as [_ ?]. }
  assert (no_double (lstrip "_"%char (reverse (lstrip "_"%char l)))) as Hnd2.
  { apply no_double_reverse in Hnd1. rewrite Hp2 in Hnd1. by eapply no_double_app_r. }
  split_and!.
  - by apply Forall_reverse.
  - by apply no_double_reverse.
  - rewrite head_reverse. intros Hlast.
    apply (last_suffix p2) in Hlast. rewrite <- Hp2, last_reverse in Hlast.
    by apply lstrip_head in Hlast.
  - rewrite last_reverse. apply lstrip_head.
Qed.

Lemma strip_id l :
  head l ≠ Some "_"%char → last l ≠ Some "_"%char → strip "_"%char l = l.
Proof.
  intros Hh Hl. unfold strip. rewrite (lstrip_id _ l Hh).
  rewrite lstrip_id by (by rewrite head_reverse). apply reverse_involutive.
Qed.

Lemma sub_runs_id l : ∀ b,
  Forall slug_text_char l → no_double l →
  (b = true → head l ≠ Some "_"%char) → sub_runs b l = l.
Proof.
  induction l as [|c l IH]; intros b Hall Hnd Hb; [done|].
  apply Forall_cons in Hall as [Hc Hall]. destruct Hnd as [Hcu Hnd].
  cbn [sub_runs]. destruct (is_slug_char c) eqn:Hs.
  - f_equal. apply IH; done.
  - destruct Hc as [Hc| ->]; [congruence|].
    destruct b; [by destruct (Hb eq_refl)|].
    f_equal. apply IH; [done|done|]. intros _. by apply Hcu.
Qed.

Lemma slugify_chars name :
  chars (_slugify name)
  = strip "_"%char (sub_runs false (chars (lower name))).
Proof. unfold _slugify. apply chars_str. Qed.

(** X4. A slug holds only lower-case letters, digits and underscores, it
    neither begins nor ends with an underscore, and no two underscores
    follow each other. *)
Theorem slugify_shape (name : string) :
  Forall slug_text_char (chars (_slugify name)) ∧
  head (chars (_slugify name)) ≠ Some "_"%char ∧
  last (chars (_slugify name)) ≠ Some "_"%char ∧
  no_double (chars (_slugify name)).
Proof.
  rewrite slugify_chars.
  destruct (strip_shape (sub_runs false (chars (lower name))))
    as (H1 & H2 & H3 & H4);
    [apply sub_runs_chars|apply sub_runs_no_double|done].
Qed.

(** X5. Slugging is idempotent: the slug of a slug is that slug, so a key
    of a mapping can be used as a name again. *)
Theorem slugify_idempotent (name : string) :
  _slugify (_slugify name) = _slugify name.
Proof.
  destruct (strip_shape (sub_runs false (chars (lower name))))
    as (Hall & Hnd & Hhead & Hlast);
    [apply sub_runs_chars|apply sub_runs_no_double|].
  rewrite <- slugify_chars in Hall, Hnd, Hhead, Hlast.
  rewrite <- (str_chars (_slugify name)) at 2.
  unfold _slugify at 1. f_equal.
  unfold lower. rewrite chars_str.
  rewrite (list_fmap_ext lower_char id (chars (_slugify name))).
  2: { intros i c Hc. apply lower_char_slug.
       rewrite Forall_forall in Hall. apply Hall. by eapply list_elem_of_lookup_2. }
  rewrite list_fmap_id, sub_runs_id by done. by apply strip_id.
Qed.

(** ** Categories and built mappings *)

Lemma lower_char_idempotent c : lower_char (lower_char c) = lower_char c.
Proof. by destruct c as [[] [] [] [] [] [] [] []]. Qed.

Lemma lower_idempotent s : lower (lower s) = lower s.
Proof.
  unfold lower. rewrite chars_str, <- list_fmap_compose. f_equal.
  apply list_fmap_ext. intros i c _. apply lower_char_idempotent.
Qed.

Lemma infer_entity_type_category name : _infer_entity_type name ∈ CATEGORIES.
Proof.
  unfold _infer_entity_type, CATEGORIES.
  repeat case_match; rewrite !elem_of_cons; auto 10.
Qed.

(** X6. The category of a name does not depend on the case of its ASCII
    letters, the term "PF" included, and it is always one of temperature,
    pressure, power and measurement. *)
Theorem infer_entity_type_case_insensitive (name : string) :
  _infer_entity_type (lower name) = _infer_entity_type name ∧
  _infer_entity_type name ∈ CATEGORIES.
Proof.
  split; [|apply infer_entity_type_category].
  unfold _infer_entity_type. by rewrite !lower_idempotent.
Qed.

Lemma dict_set_Forall {K V} `{EqDecision K} (P : K * V → Prop) d k v :
  P (k, v) → Forall P d → Forall P (dict_set k v d).
Proof.
  intros HP. induction 1 as [|[k' v'] d Hkv Hd IH]; simpl.
  - by constructor.
  - case_decide as Hk.
    + subst. by constructor.
    + by constructor.
Qed.

Lemma for_each_invariant {A B} (Inv : B → Prop) (f : B → A → exn + B) :
  (∀ b a b', Inv b → f b a = inr b' → Inv b') →
  ∀ l b b', Inv b → for_each f b l = inr b' → Inv b'.
Proof.
  intros Hf. induction l as [|a l IH]; intros b b' Hb; simpl.
  - by intros [= <-].
  - destruct (f b a) as [e|b1] eqn:Hfa; simpl; [done|].
    apply IH. by eapply Hf.
Qed.

Lemma slug_built name : Forall slug_text_char (chars (_slugify name)).
Proof.
  rewrite slugify_chars.
  by destruct (strip_shape (sub_runs false (chars (lower name))))
    as (H1 & _); [apply sub_runs_chars|apply sub_runs_no_double|].
Qed.

Lemma analog_entry_built name addr : built_entry (analog_entry name addr).
Proof.
  unfold built_entry, analog_entry. simpl.
  split_and!; [apply slug_built|apply infer_entity_type_category|by left].
Qed.

Lemma integer_entry_built name addr : built_entry (integer_entry name addr).
Proof.
  unfold built_entry, integer_entry. simpl.
  split_and!; [apply slug_built|apply infer_entity_type_category|].
  case_bool_decide as Hc; [by left|]. right. split; [done|].
  pose proof (infer_entity_type_category name) as Hcat.
  unfold CATEGORIES in Hcat. rewrite !elem_of_cons in *. tauto.
Qed.

Lemma boolean_entry_built name addr : built_entry (boolean_entry name addr).
Proof.
  unfold built_entry, boolean_entry, CATEGORIES. simpl.
  split_and!; [apply slug_built| |done|done].
  rewrite !elem_of_cons. auto.
Qed.

(** One loop body keeps a property of the mapping that its entry has. *)
Lemma add_keeps (Inv : string * definition → Prop)
    (add : mapping → item → exn + mapping)
    (mk : string → Z → string * definition) :
  (∀ m it name addr,
     item_name it = Some name → item_address it = Some addr →
     add m it = inr (dict_set (mk name addr).1 (mk name addr).2 m)) →
  (∀ m it, complete it = false → add m it = inl KeyError) →
  (∀ name addr, Inv (mk name addr)) →
  ∀ m it m',
    NoDup (dict_keys m) ∧ Forall Inv m → add m it = inr m' →
    NoDup (dict_keys m') ∧ Forall Inv m'.
Proof.
  intros Hadd Hmiss Hmk m it m' [Hnd Hall] Hm'.
  destruct (complete it) eqn:Hc.
  - destruct (complete_fields it Hc) as (name & addr & Hn & Ha).
    rewrite (Hadd m it name addr Hn Ha) in Hm'. injection Hm' as <-.
    split; [by apply dict_keys_set_NoDup|].
    apply dict_set_Forall; [|done]. specialize (Hmk name addr).
    by destruct (mk name addr).
  - by rewrite (Hmiss m it Hc) in Hm'.
Qed.

Lemma incomplete_fields it :
  complete it = false → item_name it = None ∨ item_address it = None.
Proof.
  unfold complete. intros [H|H]%andb_false_iff; apply bool_decide_eq_false in H.
  - left. destruct (item_name it); [|done]. destruct H. by eexists.
  - right. destruct (item_address it); [|done]. destruct H. by eexists.
Qed.

Lemma add_analog_missing m it : complete it = false → add_analog m it = inl KeyError.
Proof.
  intros [H|H]%incomplete_fields; unfold add_analog; rewrite H; [done|].
  by destruct (item_name it).
Qed.

Lemma add_integer_missing m it : complete it = false → add_integer m it = inl KeyError.
Proof.
  intros [H|H]%incomplete_fields; unfold add_integer; rewrite H; [done|].
  by destruct (item_name it).
Qed.

Lemma add_boolean_missing m it : complete it = false → add_boolean m it = inl KeyError.
Proof.
  intros [H|H]%incomplete_fields; unfold add_boolean; rewrite H; [done|].
  by destruct (item_name it).
Qed.

(** X7. Every mapping that [_build_mapping] returns has each key once, and
    each of its entries is well formed: the key is a slug, the category is
    one of the four, a coil is a boolean of category measurement, and a
    register is a float or an int, an int never being of category
    temperature or power. *)
Theorem build_mapping_entries (b : block) (m : mapping) :
  _build_mapping b = inr m →
  NoDup (dict_keys m) ∧ Forall built_entry m.
Proof.
  unfold _build_mapping. intros Hm.
  destruct (for_each add_analog [] (analog b)) as [e|m1] eqn:H1; [done|].
  cbn [mbind exn_bind] in Hm.
  destruct (for_each add_integer m1 (integer b)) as [e|m2] eqn:H2; [done|].
  cbn [mbind exn_bind] in Hm.
  assert (NoDup (dict_keys m1) ∧ Forall built_entry m1) as Hm1.
  { refine (for_each_invariant (λ m : mapping, NoDup (dict_keys m) ∧ Forall built_entry m) add_analog _
              (analog b) [] m1 _ H1); [|split; constructor].
    apply (add_keeps built_entry add_analog analog_entry);
      [apply add_analog_entry|apply add_analog_missing|apply analog_entry_built]. }
  assert (NoDup (dict_keys m2) ∧ Forall built_entry m2) as Hm2.
  { refine (for_each_invariant (λ m : mapping, NoDup (dict_keys m) ∧ Forall built_entry m) add_integer _
              (integer b) m1 m2 Hm1 H2).
    apply (add_keeps built_entry add_integer integer_entry);
      [apply add_integer_entry|apply add_integer_missing|apply integer_entry_built]. }
  refine (for_each_invariant (λ m : mapping, NoDup (dict_keys m) ∧ Forall built_entry m) add_boolean _
            (boolean b) m2 m Hm2 Hm).
  apply (add_keeps built_entry add_boolean boolean_entry);
    [apply add_boolean_entry|apply add_boolean_missing|apply boolean_entry_built].
Qed.

Lemma build_mapping_entries_witness :
  NoDup (dict_keys [("outdoor_temp", Definition_ Register "float" 9 "measurement")]) ∧
  Forall built_entry [("outdoor_temp", Definition_ Register "float" 9 "measurement")].
Proof. apply (build_mapping_entries colliding_block). reflexivity. Defined.

Lemma for_each_add_missing (add : mapping → item → exn + mapping)
    (mk : string → Z → string * definition) :
  (∀ m it name addr,
     item_name it = Some name → item_address it = Some addr →
     add m it = inr (dict_set (mk name addr).1 (mk name addr).2 m)) →
  (∀ m it, complete it = false → add m it = inl KeyError) →
  ∀ items m,
    forallb complete items = false → for_each add m items = inl KeyError.
Proof.
  intros Hadd Hmiss. induction items as [|it items IH]; intros m Hc; [done|].
  simpl in Hc. cbn [for_each].
  destruct (complete it) eqn:Hit.
  - destruct (complete_fields it Hit) as (name & addr & Hn & Ha).
    rewrite (Hadd m it name addr Hn Ha). cbn [mbind exn_bind]. by apply IH.
  - by rewrite (Hmiss m it Hit).
Qed.

(** X8. [_build_mapping] raises exactly when some item of the block lacks
    its name or its address, and what it raises is then a [KeyError];
    otherwise it returns the entries of the block written in order into
    an empty dict. *)
Theorem build_mapping_missing_field (b : block) :
  _build_mapping b
  = if forallb complete (analog b ++ integer b ++ boolean b)
    then inr (dict_update [] (block_entries b))
    else inl KeyError.
Proof.
  unfold _build_mapping. rewrite !forallb_app.
  destruct (forallb complete (analog b)) eqn:Ha.
  2: { by rewrite (for_each_add_missing add_analog analog_entry add_analog_entry
                     add_analog_missing _ _ Ha). }
  rewrite (for_each_add add_analog analog_entry add_analog_entry _ _ Ha).
  cbn [mbind exn_bind andb].
  destruct (forallb complete (integer b)) eqn:Hi.
  2: { by rewrite (for_each_add_missing add_integer integer_entry add_integer_entry
                     add_integer_missing _ _ Hi). }
  rewrite (for_each_add add_integer integer_entry add_integer_entry _ _ Hi).
  cbn [mbind exn_bind andb].
  destruct (forallb complete (boolean b)) eqn:Hb.
  2: { by rewrite (for_each_add_missing add_boolean boolean_entry add_boolean_entry
                     add_boolean_missing _ _ Hb). }
  rewrite (for_each_add add_boolean boolean_entry add_boolean_entry _ _ Hb).
  by rewrite !dict_update_app.
Qed.

(** ** The requests of a mapping *)

(** The scan over addresses that are sorted but may repeat. *)
Lemma coalesce_from_cover rest : ∀ start prev,
  start ≤ prev →
  StronglySorted Z.le rest →
  Forall (λ a, prev ≤ a) rest →
  Forall (λ r, 0 < req_length r) (coalesce_from start prev rest) ∧
  (length (coalesce_from start prev rest) ≤ S (length rest))%nat ∧
  (∀ a, (∃ r, r ∈ coalesce_from start prev rest ∧ covers r a)
        ↔ (start ≤ a ≤ prev ∨ a ∈ rest)).
Proof.
  induction rest as [|addr rest IH]; intros start prev Hle Hsorted Habove.
  - cbn [coalesce_from]. split_and!.
    + repeat constructor; simpl; lia.
    + done.
    + intros a. split.
      * intros (r & ->%list_elem_of_singleton & Hc). left.
        unfold covers in Hc. simpl in Hc. lia.
      * intros [Ha | Ha%elem_of_nil]; [|done].
        eexists. split; [apply list_elem_of_singleton; reflexivity|].
        unfold covers. simpl. lia.
  - apply StronglySorted_inv in Hsorted as [Hsorted Hrest].
    apply Forall_cons in Habove as [Haddr Habove].
    cbn [coalesce_from]. case_decide as Hgap.
    + destruct (IH addr addr) as (Hpos & Hlen & Hcov); [lia|done|done|].
      split_and!.
      * constructor; [simpl; lia|done].
      * simpl. lia.
      * intros a. rewrite elem_of_cons. split.
        -- intros (r & [->|Hr]%elem_of_cons & Hc).
           ++ left. unfold covers in Hc. simpl in Hc. lia.
           ++ destruct (proj1 (Hcov a)) as [?|?]; [by eauto| |by auto].
              right. left. lia.
        -- intros [Ha | [-> | Ha]].
           ++ eexists. split; [apply elem_of_cons; left; reflexivity|].
              unfold covers. simpl. lia.
           ++ destruct (proj2 (Hcov addr)) as (r & Hr & Hc); [left; lia|].
              exists r. split; [by apply elem_of_cons; right|done].
           ++ destruct (proj2 (Hcov a)) as (r & Hr & Hc); [by right|].
              exists r. split; [by apply elem_of_cons; right|done].
    + assert (addr = prev + 1) as -> by (destruct (decide (addr = prev + 1)); [done|contradiction]).
      destruct (IH start (prev + 1)) as (Hpos & Hlen & Hcov); [lia|done|done|].
      split_and!; [done|simpl; lia|].
      intros a. rewrite Hcov, elem_of_cons. intuition lia.
Qed.

Lemma coalesce_cover l :
  Forall (λ r, 0 < req_length r) (coalesce (sorted l)) ∧
  (length (coalesce (sorted l)) ≤ length l)%nat ∧
  (∀ a, (∃ r, r ∈ coalesce (sorted l) ∧ covers r a) ↔ a ∈ l).
Proof.
  assert (StronglySorted Z.le (sorted l)) as Hs
    by (apply StronglySorted_merge_sort; apply _).
  assert (length (sorted l) = length l) as Hlen
    by (unfold sorted; by rewrite merge_sort_Permutation).
  assert (∀ a, a ∈ sorted l ↔ a ∈ l) as Hin by (intros; apply sorted_elem_of).
  destruct (sorted l) as [|a0 l'].
  - simpl. split_and!; [constructor|lia|].
    intros a. rewrite <- Hin. split; [intros (r & Hr%elem_of_nil & _); done|].
    by intros ?%elem_of_nil.
  - apply StronglySorted_inv in Hs as [Hs Hall].
    destruct (coalesce_from_cover l' a0 a0) as (Hpos & Hl & Hcov); [lia|done|done|].
    cbn [coalesce]. split_and!; [done|simpl in Hlen; lia|].
    intros a. rewrite Hcov, <- Hin, elem_of_cons. intuition lia.
Qed.

Lemma elem_of_addresses_of m dt a :
  a ∈ addresses_of m dt ↔ ∃ k d, (k, d) ∈ m ∧ data_type d = dt ∧ address d = a.
Proof.
  unfold addresses_of, dict_values. rewrite list_elem_of_fmap. split.
  - intros (d & -> & [Hdt ([k d'] & -> & Hkd)%list_elem_of_fmap]%list_elem_of_filter).
    by exists k, d'.
  - intros (k & d & Hkd & Hdt & <-). exists d. split; [done|].
    apply list_elem_of_filter. split; [done|].
    apply list_elem_of_fmap. by exists (k, d).
Qed.

(** X9. The requests that [_build_requests] forms for an address space
    cover exactly the addresses of the mapping's entries in that space,
    also when several entries share an address; every request is for one
    address at least, and there are no more requests than entries. *)
Theorem build_requests_cover (m : mapping) (dt : DataTypes) :
  (∀ a, (∃ r, r ∈ at_type (_build_requests m) dt ∧ covers r a)
        ↔ ∃ k d, (k, d) ∈ m ∧ data_type d = dt ∧ address d = a) ∧
  Forall (λ r, 0 < req_length r) (at_type (_build_requests m) dt) ∧
  (length (at_type (_build_requests m) dt) ≤ length (addresses_of m dt))%nat ∧
  (length (addresses_of m dt) ≤ length m)%nat.
Proof.
  assert (at_type (_build_requests m) dt = coalesce (sorted (addresses_of m dt)))
    as -> by (by destruct dt).
  destruct (coalesce_cover (addresses_of m dt)) as (Hpos & Hlen & Hcov).
  split_and!; [|done|done|].
  - intros a. by rewrite Hcov, elem_of_addresses_of.
  - unfold addresses_of, dict_values.
    rewrite length_fmap. etrans; [apply length_filter|]. by rewrite length_fmap.
Qed.

(** ** Loading a range *)

Lemma fill_short response range : ∀ result index,
  (index ≤ length response < index + length range)%nat →
  fill result range index response = inl IndexError.
Proof.
  induction range as [|i range IH]; intros result index Hlen; simpl in *; [lia|].
  destruct (response !! index) as [v|] eqn:Hv; [|done].
  apply lookup_lt_Some in Hv. apply IH. lia.
Qed.

Lemma dict_get_zip {V} (keys : list Z) : ∀ (vs : list V) k key,
  NoDup keys → keys !! k = Some key → length vs = length keys →
  dict_get key (zip keys vs) = vs !! k.
Proof.
  induction keys as [|x keys IH]; intros vs k key Hnd Hk Hlen; [done|].
  destruct vs as [|v vs]; [done|]. apply NoDup_cons in Hnd as [Hx Hnd].
  simpl. destruct k as [|k]; simpl in *.
  - injection Hk as ->. by rewrite decide_True.
  - rewrite decide_False.
    + apply IH; [done|done|lia].
    + intros ->. apply Hx. by eapply list_elem_of_lookup_2.
Qed.

(** X10. [_load_data] makes one request.  When the heat pump answers with
    a list, the result holds exactly [length] entries, the k-th value of
    the answer under the key [address + k], and values beyond the
    requested length are ignored; an answer with fewer values than
    requested raises an [IndexError]. *)
Theorem load_data_result (from : site) (address length op_type : Z) (w : world)
    (response : list string) :
  host (self w) (calls (self w)) op_type address length = inr response →
  (_load_data from address length op_type w).2
  = World (with_io (self w) (S (calls (self w)))
             (trace (self w) ++ [Read from op_type address length]))
          (MAPPING w) ∧
  ((List.length response < Z.to_nat length)%nat →
   (_load_data from address length op_type w).1 = inl IndexError) ∧
  ((Z.to_nat length ≤ List.length response)%nat →
   ∃ data,
     (_load_data from address length op_type w).1 = inr data ∧
     dict_keys data = seqZ address length ∧
     dict_values data = take (Z.to_nat length) response ∧
     ∀ k, (k < Z.to_nat length)%nat →
          dict_get (address + Z.of_nat k) data = response !! k).
Proof.
  intros Hh. unfold _load_data, _request, mbind, io_bind, lift.
  cbn [self MAPPING]. rewrite Hh. cbn [fst snd]. split_and!.
  - done.
  - intros Hshort. apply fill_short. rewrite length_seqZ. lia.
  - intros Hlong. eexists. split.
    { apply fill_fresh.
      - apply NoDup_seqZ.
      - apply Forall_forall. intros k _. apply not_elem_of_nil.
      - by rewrite length_seqZ. }
    rewrite app_nil_l, length_seqZ, drop_0.
    assert (List.length (take (Z.to_nat length) response)
            = List.length (seqZ address length)) as Hlen
      by (rewrite length_seqZ, length_take; lia).
    split_and!.
    + unfold dict_keys. apply fst_zip. lia.
    + unfold dict_values. apply snd_zip. lia.
    + intros k Hk.
      rewrite (dict_get_zip (seqZ address length) _ k (address + Z.of_nat k));
        [|apply NoDup_seqZ|apply lookup_seqZ_lt; lia|done].
      by apply lookup_take_lt.
Qed.

Lemma load_data_result_witness :
  ∃ data,
    (_load_data RangeRead 200 2 2002
       (World (EcoGeoApi_init domestic_catalog hp_host domestic_catalog)
          domestic_catalog)).1 = inr data ∧
    dict_values data = take (Z.to_nat 2) ["0"; "0"].
Proof.
  destruct (load_data_result RangeRead 200 2 2002
              (World (EcoGeoApi_init domestic_catalog hp_host domestic_catalog)
                 domestic_catalog) ["0"; "0"] eq_refl) as (_ & _ & H).
  destruct H as (data & Hd & _ & Hv & _).
  - vm_compute. lia.
  - by exists data.
Defined.

(** ** Retries *)

Lemma attempt_spec dt r state i w :
  attempt dt r state i w
  = match answer w 0 dt r with
    | inr data =>
        (inr (Some (set_type state dt (dict_update (at_type state dt) data))),
         later w 1 [Read RangeRead (Operations_Get dt) (req_address r) (req_length r)])
    | inl e =>
        if i <? 4
        then (inr None,
              later w 1 [Read RangeRead (Operations_Get dt) (req_address r) (req_length r);
                         Sleep (2 ^ i)])
        else (inl e,
              later w 1 [Read RangeRead (Operations_Get dt) (req_address r) (req_length r)])
    end.
Proof.
  unfold attempt, try_except, _load_data, _request, answer, later.
  unfold mbind at 1 2. unfold io_bind, lift. cbn [self MAPPING].
  rewrite Nat.add_0_r, Nat.add_1_r.
  destruct (host (self w) (calls (self w)) _ _ _) as [e|response]; cbn [mbind exn_bind].
  - destruct (i <? 4); [|done].
    unfold sleep, modify_self, mbind, io_bind, mret, io_ret. simpl.
    by rewrite <- app_assoc.
  - destruct (fill _ _ _ _) as [e|data]; [|done].
    destruct (i <? 4); [|done].
    unfold sleep, modify_self, mbind, io_bind, mret, io_ret. simpl.
    by rewrite <- app_assoc.
Qed.

Lemma answer_later w n t j dt r :
  answer (later w n t) j dt r = answer w (n + j) dt r.
Proof. unfold answer, later. simpl. by rewrite Nat.add_assoc. Qed.

Lemma later_later w n t n' t' :
  later (later w n t) n' t' = later w (n + n') (t ++ t').
Proof. unfold later, with_io. simpl. by rewrite Nat.add_assoc, app_assoc. Qed.


Lemma io_bind_unfold {A B} (m : io A) (f : A → io B) w :
  (m ≫= f) w
  = match m w with
    | (inl e, w') => (inl e, w')
    | (inr a, w') => f a w'
    end.
Proof. reflexivity. Qed.

Lemma retry_cases (dt : DataTypes) (r : request) (state : raw_table) (w : world) :
  let rd := Read RangeRead (Operations_Get dt) (req_address r) (req_length r) in
  let updated data := set_type state dt (dict_update (at_type state dt) data) in
  retry dt r state (seqZ 0 3) w
  = match answer w 0 dt r with
    | inr data => (inr (updated data), later w 1 [rd])
    | inl _ =>
        match answer w 1 dt r with
        | inr data => (inr (updated data), later w 2 [rd; Sleep 1; rd])
        | inl _ =>
            match answer w 2 dt r with
            | inr data =>
                (inr (updated data), later w 3 [rd; Sleep 1; rd; Sleep 2; rd])
            | inl _ =>
                (inr state, later w 3 [rd; Sleep 1; rd; Sleep 2; rd; Sleep 4])
            end
        end
    end.
Proof.
  intros rd updated. change (seqZ 0 3) with [0; 1; 2]. cbn [retry].
  rewrite io_bind_unfold, attempt_spec. fold rd.
  destruct (answer w 0 dt r) as [e0|data0]; [|done].
  change (0 <? 4) with true. change (2 ^ 0) with 1. cbv beta iota.
  rewrite io_bind_unfold, attempt_spec, answer_later. fold rd.
  change (1 + 0)%nat with 1%nat.
  destruct (answer w 1 dt r) as [e1|data1].
  2: { by rewrite later_later. }
  change (1 <? 4) with true. change (2 ^ 1) with 2. cbv beta iota.
  rewrite later_later.
  rewrite io_bind_unfold, attempt_spec, answer_later. fold rd.
  change (1 + 1 + 0)%nat with 2%nat.
  destruct (answer w 2 dt r) as [e2|data2].
  2: { by rewrite later_later. }
  change (2 <? 4) with true. change (2 ^ 2) with 4. cbv beta iota.
  by rewrite later_later.
Qed.

(** ** The decoding loop *)

Lemma for_each_single {A B} (f : B → A → exn + B) b a :
  for_each f b [a] = f b a.
Proof. simpl. by destruct (f b a). Qed.

(** One turn of the loop either leaves the snapshot as it is or writes the
    value that the entry alone decodes to. *)
Lemma decode_item_cases state info k d info' :
  decode_item state info (k, d) = inr info' →
  (info' = info ∧ decode [(k, d)] state = inr []) ∨
  (∃ v, info' = dict_set k v info ∧ decode [(k, d)] state = inr [(k, v)]).
Proof.
  unfold decode. rewrite for_each_single. unfold decode_item.
  destruct (dict_get (address d) (at_type state (data_type d))) as [raw|];
    [|intros [= <-]; by left].
  repeat case_match; simplify_eq/=;
    try (intros [= <-]; by left);
    match goal with
    | |- context [parse_ecoforest_int raw ≫= _] =>
        destruct (parse_ecoforest_int raw); simpl; [done|]
    | |- context [parse_ecoforest_float raw ≫= _] =>
        destruct (parse_ecoforest_float raw); simpl; [done|]
    | |- context [parse_ecoforest_bool raw ≫= _] =>
        destruct (parse_ecoforest_bool raw); simpl; [done|]
    end;
    intros [= <-]; right; by eexists.
Qed.

Lemma decode_from state m : ∀ acc info,
  NoDup (dict_keys m) → NoDup (dict_keys acc) →
  for_each (decode_item state) acc m = inr info →
  NoDup (dict_keys info) ∧
  ∀ k, dict_get k info
       = match dict_get k m with
         | Some d =>
             match decode [(k, d)] state with
             | inr [] => dict_get k acc
             | inr one => dict_get k one
             | inl _ => None
             end
         | None => dict_get k acc
         end.
Proof.
  induction m as [|[k0 d0] m IH]; intros acc info Hm Hacc Hinfo.
  - simpl in Hinfo. injection Hinfo as <-. done.
  - unfold dict_keys in Hm. rewrite fmap_cons in Hm.
    apply NoDup_cons in Hm as [Hk0 Hm]. cbn [fst] in Hk0.
    cbn [for_each] in Hinfo.
    destruct (decode_item state acc (k0, d0)) as [e|acc1] eqn:Hitem; [done|].
    cbn [mbind exn_bind] in Hinfo.
    assert (dict_get k0 m = None) as Hnone.
    { clear -Hk0. induction m as [|[k d] m IH]; [done|].
      rewrite fmap_cons, not_elem_of_cons in Hk0. destruct Hk0 as [Hne Hk0].
      simpl in *. rewrite decide_False by done. by apply IH. }
    destruct (decode_item_cases _ _ _ _ _ Hitem) as [[-> Hone]|(v & -> & Hone)].
    + destruct (IH acc info Hm Hacc Hinfo) as [Hnd Hget]. split; [done|].
      intros k. rewrite Hget. simpl. case_decide as Hk; [|done].
      subst k. by rewrite Hnone, Hone.
    + destruct (IH _ info Hm (dict_keys_set_NoDup acc k0 v Hacc) Hinfo) as [Hnd Hget].
      split; [done|]. intros k. rewrite Hget. simpl. case_decide as Hk.
      * subst k. rewrite Hnone, Hone. simpl. rewrite decide_True by done.
        apply dict_get_set_eq.
      * destruct (dict_get k m) as [d|]; [|by apply dict_get_set_ne].
        destruct (decode [(k, d)] state) as [e|[|p one]]; try done.
        by apply dict_get_set_ne.
Qed.

Lemma decode_each state m : ∀ acc info k d,
  for_each (decode_item state) acc m = inr info →
  dict_get k m = Some d →
  returns (decode [(k, d)] state).
Proof.
  induction m as [|[k0 d0] m IH]; intros acc info k d Hinfo Hk; [done|].
  cbn [for_each] in Hinfo.
  destruct (decode_item state acc (k0, d0)) as [e|acc1] eqn:Hitem; [done|].
  cbn [mbind exn_bind] in Hinfo. simpl in Hk. case_decide as Hk0.
  - simplify_eq.
    destruct (decode_item_cases _ _ _ _ _ Hitem) as [[_ H]|(v & _ & H)];
      eexists; exact H.
  - by eapply IH.
Qed.

(** X12. The decoding loop treats each entry on its own: when the mapping
    has each key once and the loop returns a snapshot, the snapshot has
    each key once, a key that is not in the mapping is not in the snapshot,
    and the field of an entry is what that entry alone decodes to (absent,
    in particular, when its raw value is absent from the table). *)
Theorem decode_fields (m : mapping) (state : raw_table) (info : device_info) :
  NoDup (dict_keys m) →
  decode m state = inr info →
  NoDup (dict_keys info) ∧
  (∀ k, dict_get k m = None → dict_get k info = None) ∧
  (∀ k d, dict_get k m = Some d →
          ∃ one, decode [(k, d)] state = inr one ∧
                 dict_get k info = dict_get k one) ∧
  (∀ k d, dict_get k m = Some d →
          dict_get (address d) (at_type state (data_type d)) = None →
          dict_get k info = None).
Proof.
  intros Hm Hinfo.
  destruct (decode_from state m [] info Hm (NoDup_nil_2) Hinfo) as [Hnd Hget].
  assert (∀ k d, dict_get k m = Some d →
                 ∃ one, decode [(k, d)] state = inr one ∧
                        dict_get k info = dict_get k one) as Hone.
  { intros k d Hk.
    destruct (decode_each state m [] info k d Hinfo Hk) as [one Hone].
    exists one. split; [done|]. rewrite Hget, Hk, Hone. by destruct one. }
  split_and!; [done| |done|].
  - intros k Hk. by rewrite Hget, Hk.
  - intros k d Hk Hraw. destruct (Hone k d Hk) as (one & Hd & ->).
    unfold decode in Hd. rewrite for_each_single in Hd. unfold decode_item in Hd.
    rewrite Hraw in Hd. by injection Hd as <-.
Qed.

Lemma decode_fields_witness :
  dict_get "field_b" [("field_a", VBool true); ("field_b", VFloat 999.9)]
  = dict_get "field_b" [("field_b", VFloat 999.9)].
Proof.
  destruct (decode_fields two_entry_catalog (two_entry_table "270F")
              [("field_a", VBool true); ("field_b", VFloat 999.9)]) as (_ & _ & H & _).
  - apply (bool_decide_unpack _). vm_compute. exact I.
  - reflexivity.
  - destruct (H "field_b" (Definition_ Register "float" 200 "temperature") eq_refl)
      as (one & Hone & ->).
    vm_compute in Hone. by injection Hone as <-.
Defined.


Lemma sentinel_tenths n : Qeq_bool (n # 10) (-9999 # 10) = true ↔ n = -9999.
Proof. rewrite Qeq_bool_iff. unfold Qeq. simpl. lia. Qed.

(** What a single entry decodes to is null only for the sentinel of a
    float temperature. *)
Lemma decode_single_null state k d one :
  decode [(k, d)] state = inr one →
  (dict_get k one = Some VNone ↔
   ∃ raw, dict_get (address d) (at_type state (data_type d)) = Some raw ∧
          type d = "float" ∧ entity_type d = "temperature" ∧
          parse_ecoforest_int raw = inr (-9999)).
Proof.
  unfold decode. rewrite for_each_single. unfold decode_item.
  destruct (dict_get (address d) (at_type state (data_type d))) as [raw|].
  2: { intros [= <-]. split; [done|]. by intros (raw & ? & _). }
  destruct (String.eqb_spec (type d) "int") as [Hint|Hint].
  { destruct (parse_ecoforest_int raw) as [e|n]; [done|]. cbn [mbind exn_bind].
    rewrite andb_false_r. intros [= <-]. simpl. rewrite decide_True by done.
    split; [done|]. intros (raw' & _ & Hf & _). congruence. }
  destruct (String.eqb_spec (type d) "float") as [Hfloat|Hfloat].
  { unfold parse_ecoforest_float.
    destruct (parse_ecoforest_int raw) as [e|n] eqn:Hp; [done|].
    unfold true_divide_10.
    destruct (10 * FLOAT_OVERFLOW <=? Z.abs n) eqn:Hov; [done|]. cbn [mbind exn_bind].
    destruct (String.eqb_spec (entity_type d) "temperature") as [Htemp|Htemp];
      cbn [andb is_sentinel].
    - destruct (Qeq_bool (n # 10) (-9999 # 10)) eqn:Hq.
      + apply sentinel_tenths in Hq as ->. intros [= <-]. simpl.
        rewrite decide_True by done. split; [|done]. intros _. by exists raw.
      + intros [= <-]. simpl. rewrite decide_True by done. split; [done|].
        intros (raw' & [= <-] & _ & _ & Hn). rewrite Hp in Hn. injection Hn as ->.
        by rewrite (proj2 (sentinel_tenths _)) in Hq.
    - intros [= <-]. simpl. rewrite decide_True by done. split; [done|].
      intros (raw' & _ & _ & ? & _). done. }
  destruct (String.eqb_spec (type d) "boolean") as [Hbool|Hbool].
  { destruct (parse_ecoforest_bool raw) as [e|b]; [done|]. cbn [mbind exn_bind].
    rewrite andb_false_r. intros [= <-]. simpl. rewrite decide_True by done.
    split; [done|]. intros (raw' & _ & Hf & _). congruence. }
  intros [= <-]. split; [done|]. intros (raw' & _ & Hf & _). congruence.
Qed.

(** X13. A field of a snapshot is null exactly when its entry is a float
    of category temperature whose raw value decodes to the integer -9999,
    that is to -999.9; a field of any other category, or of another type,
    is never null. *)
Theorem null_field (m : mapping) (state : raw_table) (info : device_info)
    (k : string) :
  NoDup (dict_keys m) →
  decode m state = inr info →
  (dict_get k info = Some VNone ↔
   ∃ d raw, dict_get k m = Some d ∧
            dict_get (address d) (at_type state (data_type d)) = Some raw ∧
            type d = "float" ∧ entity_type d = "temperature" ∧
            parse_ecoforest_int raw = inr (-9999)).
Proof.
  intros Hm Hinfo.
  destruct (decode_from state m [] info Hm (NoDup_nil_2) Hinfo) as [_ Hget].
  rewrite Hget. destruct (dict_get k m) as [d|] eqn:Hk.
  2: { split; [done|]. by intros (d & raw & ? & _). }
  destruct (decode_each state m [] info k d Hinfo Hk) as [one Hone].
  rewrite Hone. pose proof (decode_single_null state k d one Hone) as Hnull.
  assert (match one with [] => dict_get k [] | _ => dict_get k one end
          = dict_get k one) as Hsame by (by destruct one).
  etrans; [|etrans; [exact Hnull|]].
  - destruct one; [done|]. done.
  - split.
    + intros (raw & ?). by exists d, raw.
    + intros (d' & raw & [= <-] & ?). by exists raw.
Qed.

Lemma null_field_witness :
  dict_get "field_b" [("field_a", VBool true); ("field_b", VNone)] = Some VNone.
Proof.
  apply (null_field two_entry_catalog (two_entry_table "D8F1")).
  - apply (bool_decide_unpack _). vm_compute. exact I.
  - reflexivity.
  - exists (Definition_ Register "float" 200 "temperature"), "D8F1".
    split_and!; reflexivity.
Defined.

Lemma int_of_str_error base s e : int_of_str base s = inl e → e = ValueError.
Proof. unfold int_of_str. repeat case_match; congruence. Qed.

Lemma parse_ecoforest_int_error s e : parse_ecoforest_int s = inl e → e = ValueError.
Proof.
  unfold parse_ecoforest_int. destruct (int_of_str 16 s) eqn:H; [|done].
  intros [= <-]. by eapply int_of_str_error.
Qed.

Lemma parse_ecoforest_float_error s e :
  parse_ecoforest_float s = inl e → e = ValueError ∨ e = OverflowError.
Proof.
  unfold parse_ecoforest_float. destruct (parse_ecoforest_int s) eqn:H.
  - intros [= <-]. left. by eapply parse_ecoforest_int_error.
  - unfold true_divide_10. case_match; [|done]. intros [= <-]. by right.
Qed.

Lemma parse_ecoforest_bool_error s e :
  parse_ecoforest_bool s = inl e → e = ValueError.
Proof.
  unfold parse_ecoforest_bool. destruct (int_of_str 10 s) eqn:H; [|done].
  intros [= <-]. by eapply int_of_str_error.
Qed.

(** The least register string whose tenth is beyond the floats has 257
    digits. *)
Lemma parse_ecoforest_float_overflow :
  parse_ecoforest_float (str (replicate 257 "f"%char)) = inl OverflowError ∧
  returns (parse_ecoforest_float (str (replicate 256 "f"%char))).
Proof. split; [by vm_compute|]. vm_compute. by eexists. Qed.

Lemma decode_item_error state info kd e :
  decode_item state info kd = inl e → e = ValueError ∨ e = OverflowError.
Proof.
  destruct kd as [k d]. unfold decode_item.
  destruct (dict_get _ _) as [raw|]; [|done].
  destruct (String.eqb (type d) "int").
  { destruct (parse_ecoforest_int raw) eqn:Hp; simpl; [|done].
    intros [= <-]. left. by eapply parse_ecoforest_int_error. }
  destruct (String.eqb (type d) "float").
  { destruct (parse_ecoforest_float raw) eqn:Hp; simpl; [|done].
    intros [= <-]. by eapply parse_ecoforest_float_error. }
  destruct (String.eqb (type d) "boolean"); [|done].
  destruct (parse_ecoforest_bool raw) eqn:Hp; simpl; [|done].
  intros [= <-]. left. by eapply parse_ecoforest_bool_error.
Qed.

Lemma decode_error m state e :
  decode m state = inl e → e = ValueError ∨ e = OverflowError.
Proof.
  unfold decode. generalize (@nil (string * value)).
  induction m as [|kd m IH]; intros acc; [done|]. cbn [for_each].
  destruct (decode_item state acc kd) as [e'|acc1] eqn:Hitem; cbn [mbind exn_bind].
  - intros [= <-]. by eapply decode_item_error.
  - apply IH.
Qed.


(** ** What a poll raises and how much it asks *)

(** X14. Once its model is resolved, a session's [get] raises nothing that
    comes from the heat pump: whatever the requests do, the reads return a
    table, and [get] raises only when decoding that table with the
    session's mapping raises, and then it raises that exception: the
    [ValueError] of a raw value that [int] refuses, or the [OverflowError]
    of a float whose tenth is beyond the floats. *)
Theorem resolved_get_errors (D H : mapping) (w : world) (e : exn) :
  is_Some (_model_name (self w)) →
  (get D H w).1 = inl e →
  (e = ValueError ∨ e = OverflowError) ∧
  ∃ state, (read_ranges w).1 = inr state ∧
           decode (_MAPPING (self w)) state = inl e.
Proof.
  intros [name Hname] He. rewrite get_spec, Hname in He.
  unfold read_and_decode in He. rewrite io_bind_unfold in He.
  destruct (read_ranges_never_raises w) as [state Hstate].
  pose proof (read_ranges_steps w) as Hstep.
  destruct (read_ranges w) as [[e'|state'] w1]; simpl in Hstate; [done|].
  injection Hstate as ->.
  destruct (io_step_inv _ _ _ Hstep) as (_ & Hmap & _). simpl in Hmap.
  rewrite io_bind_unfold in He. unfold get_self in He.
  rewrite io_bind_unfold in He. unfold lift in He. rewrite Hmap in He.
  destruct (decode (_MAPPING (self w)) state) as [e'|info] eqn:Hd; [|done].
  simpl in He. injection He as ->.
  split; [by eapply decode_error|]. by exists state.
Qed.

Lemma resolved_get_errors_witness :
  (ValueError = ValueError ∨ ValueError = OverflowError) ∧
  ∃ state,
    (read_ranges
       (World (Api [("field_c", Definition_ Register "int" 300 "measurement")]
                 (_build_requests [("field_c", Definition_ Register "int" 300 "measurement")])
                 (Some "EATM00")
                 (λ _ _ _ _, inr ["xyz"]) 0 [])
          hp_catalog)).1 = inr state ∧
    decode (_MAPPING
              (self (World (Api [("field_c", Definition_ Register "int" 300 "measurement")]
                              (_build_requests
                                 [("field_c", Definition_ Register "int" 300 "measurement")])
                              (Some "EATM00")
                              (λ _ _ _ _, inr ["xyz"]) 0 [])
                       hp_catalog))) state = inl ValueError.
Proof.
  apply (resolved_get_errors domestic_catalog hp_catalog).
  - by eexists.
  - reflexivity.
Defined.

(** X15. The read of the model range is not retried: when the heat pump
    fails it, [get] raises that very exception after the one request,
    without sleeping, and leaves the session unresolved with its mapping,
    its requests and the module-level [MAPPING] as they were. *)
Theorem model_read_not_retried (D H : mapping) (w : world) (e : exn) :
  _model_name (self w) = None →
  host (self w) (calls (self w)) (Operations_Get Register)
    MODEL_ADDRESS MODEL_LENGTH = inl e →
  get D H w = (inl e, after_model_read w).
Proof.
  intros Hname Hhost. pose proof (get_unresolved D H w Hname) as Hg.
  unfold detect in Hg. by rewrite Hhost in Hg.
Qed.

Lemma model_read_not_retried_witness :
  get domestic_catalog hp_catalog
    (World (EcoGeoApi_init domestic_catalog busy_host domestic_catalog) domestic_catalog)
  = (inl (RequestError "busy"),
     after_model_read
       (World (EcoGeoApi_init domestic_catalog busy_host domestic_catalog)
          domestic_catalog)).
Proof. apply model_read_not_retried; reflexivity. Defined.


(** ** Expanding the requests *)

Lemma expand_cons r rs :
  expand (r :: rs) = seqZ (req_address r) (req_length r) ++ expand rs.
Proof. done. Qed.

Lemma expand_coalesce_from rest : ∀ start prev,
  start ≤ prev →
  expand (coalesce_from start prev rest) = seqZ start (prev - start + 1) ++ rest.
Proof.
  induction rest as [|addr rest IH]; intros start prev Hle; cbn [coalesce_from].
  - rewrite expand_cons. simpl. done.
  - case_decide as Hgap.
    + rewrite expand_cons. cbn [req_address req_length]. f_equal.
      rewrite IH by lia. by replace (addr - addr + 1) with 1 by lia.
    + assert (addr = prev + 1) as ->
        by (destruct (decide (addr = prev + 1)); [done|contradiction]).
      rewrite IH by lia.
      replace (prev + 1 - start + 1) with ((prev - start + 1) + 1) by lia.
      rewrite seqZ_app by lia. rewrite <- app_assoc. do 2 f_equal.
      replace (start + (prev - start + 1)) with (prev + 1) by lia. done.
Qed.

(** X16. Coalescing loses nothing and adds nothing: the addresses that the
    ranges of [coalesce] ask for, read off in order, are the addresses it
    was given, each as often as it was given; so the requests of a mapping
    for an address space ask for the sorted addresses of its entries, and
    coalescing the addresses of coalesced ranges gives the same ranges. *)
Theorem expand_coalesce (addresses : list Z) (m : mapping) (dt : DataTypes) :
  expand (coalesce addresses) = addresses ∧
  expand (at_type (_build_requests m) dt) = sorted (addresses_of m dt) ∧
  coalesce (expand (coalesce addresses)) = coalesce addresses.
Proof.
  assert (∀ l, expand (coalesce l) = l) as Hexp.
  { intros [|a l]; [done|]. cbn [coalesce]. rewrite expand_coalesce_from by lia.
    by replace (a - a + 1) with 1 by lia. }
  split_and!; [done| |by rewrite Hexp].
  by destruct dt; simpl; rewrite Hexp.
Qed.


(** ** The boolean and the float decoders *)

Lemma code_zero c : code c = 48 ↔ c = "0"%char.
Proof.
  split; [|by intros ->].
  destruct c as [[] [] [] [] [] [] [] []]; vm_compute; first [reflexivity|discriminate].
Qed.

Lemma decimal_digit_in c :
  between 48 57 (code c) = true →
  digit_in 10 c = Some (code c - 48) ∧ 0 ≤ code c - 48 < 10.
Proof.
  intros H. unfold digit_in, digit_value. rewrite H. simpl.
  apply between_spec in H.
  destruct (Z.ltb_spec (code c - 48) 10); [split; [done|lia]|lia].
Qed.

Lemma int_digits_decimal cs : ∀ acc,
  0 ≤ acc →
  forallb (λ c, between 48 57 (code c)) cs = true →
  ∃ v, int_digits 10 acc cs = Some v ∧ acc ≤ v ∧
       (v = 0 ↔ acc = 0 ∧ forallb (λ c, bool_decide (c = "0"%char)) cs = true).
Proof.
  induction cs as [|c cs IH]; intros acc Hacc Hcs.
  - exists acc. simpl. split_and!; [done|lia|tauto].
  - simpl in Hcs. apply andb_prop in Hcs as [Hc Hcs].
    destruct (decimal_digit_in c Hc) as [Hd Hrange].
    destruct (IH (acc * 10 + (code c - 48)) ltac:(lia) Hcs) as (v & Hv & Hle & Hzero).
    exists v. cbn [int_digits]. rewrite Hd. cbn [mbind option_bind].
    split_and!; [done|lia|].
    rewrite Hzero. cbn [forallb]. rewrite andb_true_iff, bool_decide_eq_true.
    rewrite <- code_zero. intuition lia.
Qed.

Lemma decimal_digits_plain cs :
  forallb (λ c, between 48 57 (code c)) cs = true →
  Forall (λ c, is_Some (digit_in 10 c)) cs.
Proof.
  induction cs as [|c cs IH]; simpl; [constructor|].
  intros [Hc Hcs]%andb_prop. constructor; [|by apply IH].
  destruct (decimal_digit_in c Hc) as [-> _]. by eexists.
Qed.

(** X17. On a string of decimal digits [parse_ecoforest_bool] raises a
    [ValueError] when the digits are more than 4300, the limit of [int] on
    decimal strings; otherwise it does not raise, and it is false exactly
    when every digit is a zero: "0" and "00" are false, and "1", "7" and
    "10" are true. *)
Theorem parse_ecoforest_bool_spec (s : string) :
  is_decimal_string s = true →
  parse_ecoforest_bool s
  = if MAX_STR_DIGITS <? Z.of_nat (length (chars s))
    then inl ValueError
    else inr (negb (forallb (λ c, bool_decide (c = "0"%char)) (chars s))).
Proof.
  unfold is_decimal_string, parse_ecoforest_bool. intros Hs.
  assert (chars s ≠ [] ∧ forallb (λ c, between 48 57 (code c)) (chars s) = true)
    as [Hne Hall] by (by destruct (chars s)).
  rewrite int_of_str_plain by (try apply decimal_digits_plain; done).
  change (negb (is_power_of_two 10)) with true. cbn [andb].
  destruct (MAX_STR_DIGITS <? Z.of_nat (length (chars s))); [done|].
  destruct (int_digits_decimal (chars s) 0 ltac:(lia) Hall) as (v & -> & _ & Hzero).
  f_equal. destruct (Z.eqb_spec v 0) as [Hv|Hv].
  - apply Hzero in Hv as [_ ->]. done.
  - destruct (forallb (λ c0, bool_decide (c0 = "0"%char)) (chars s)) eqn:Hf; [|done].
    destruct Hv. by apply (proj2 Hzero).
Qed.

Lemma parse_ecoforest_bool_spec_witness :
  parse_ecoforest_bool "10" = inr true.
Proof. apply (parse_ecoforest_bool_spec "10"). reflexivity. Defined.

Lemma true_divide_10_small n : Z.abs n ≤ 65536 → true_divide_10 n = inr (n # 10).
Proof.
  intros Hn. unfold true_divide_10.
  assert (65536 < 10 * FLOAT_OVERFLOW) as Hbound by (by vm_compute).
  destruct (Z.leb_spec (10 * FLOAT_OVERFLOW) (Z.abs n)); [lia|done].
Qed.

Lemma parse_hex s :
  is_hex_string s = true →
  parse_ecoforest_int s
  = inr (if hex_value s <=? 32768 then hex_value s else hex_value s - 65536).
Proof. intros H. unfold parse_ecoforest_int. by rewrite int_of_str_hex. Qed.

Lemma hex_value_16_bits s :
  is_hex_string s = true → length (chars s) = 4%nat → 0 ≤ hex_value s < 65536.
Proof.
  intros H Hl. pose proof (hex_value_bounds s H) as Hb. rewrite Hl in Hb.
  by change (16 ^ Z.of_nat 4) with 65536 in Hb.
Qed.

(** X18. Over the register strings of four hexadecimal digits the integer
    decoder loses nothing: two strings decode to the same integer exactly
    when they have the same unsigned value; and the float decoder gives the
    sentinel -999.9 for the one value 55537 (D8F1) alone. *)
Theorem register_decoding_injective (s1 s2 : string) :
  is_hex_string s1 = true → is_hex_string s2 = true →
  length (chars s1) = 4%nat → length (chars s2) = 4%nat →
  (parse_ecoforest_int s1 = parse_ecoforest_int s2 ↔ hex_value s1 = hex_value s2) ∧
  ∃ q, parse_ecoforest_float s1 = inr q ∧
       (Qeq_bool q (-9999 # 10) = true ↔ hex_value s1 = 55537).
Proof.
  intros H1 H2 L1 L2.
  pose proof (hex_value_16_bits s1 H1 L1) as B1.
  pose proof (hex_value_16_bits s2 H2 L2) as B2.
  unfold parse_ecoforest_float. rewrite (parse_hex s1 H1), (parse_hex s2 H2). split.
  - split; [|by intros ->]. intros [= Heq].
    destruct (Z.leb_spec (hex_value s1) 32768), (Z.leb_spec (hex_value s2) 32768); lia.
  - eexists. split.
    + apply true_divide_10_small.
      destruct (Z.leb_spec (hex_value s1) 32768); lia.
    + rewrite sentinel_tenths.
      destruct (Z.leb_spec (hex_value s1) 32768); lia.
Qed.

Lemma register_decoding_injective_witness :
  (parse_ecoforest_int "8000" = parse_ecoforest_int "d8f1"
   ↔ hex_value "8000" = hex_value "d8f1") ∧
  ∃ q, parse_ecoforest_float "8000" = inr q ∧
       (Qeq_bool q (-9999 # 10) = true ↔ hex_value "8000" = 55537).
Proof. apply (register_decoding_injective "8000" "d8f1"); reflexivity. Defined.


(** ** The number of requests of a poll *)

Lemma retry_calls dt r state w :
  (calls (self w) + 1 ≤ calls (self (retry dt r state (seqZ 0 3) w).2)
   ≤ calls (self w) + 3)%nat ∧
  returns (retry dt r state (seqZ 0 3) w).1.
Proof.
  pose proof (retry_cases dt r state w) as H. cbv zeta in H. rewrite H.
  destruct (answer w 0 dt r); [|simpl; split; [lia|by eexists]].
  destruct (answer w 1 dt r); [|simpl; split; [lia|by eexists]].
  destruct (answer w 2 dt r); simpl; (split; [lia|by eexists]).
Qed.

(** X11. The three attempts of a range read: the first answer that loads
    ends the loop, and the table of the address space is updated with that
    data alone; each failed attempt is followed by a sleep of 1, 2 and 4
    seconds in turn; and when all three fail the loop ends without raising,
    with the table as it was and the last sleep done.  In every case the
    loop returns, after one to three requests. *)
Theorem retry_outcome (dt : DataTypes) (r : request) (state : raw_table) (w : world) :
  let rd := Read RangeRead (Operations_Get dt) (req_address r) (req_length r) in
  let updated data := set_type state dt (dict_update (at_type state dt) data) in
  retry dt r state (seqZ 0 3) w
  = match answer w 0 dt r with
    | inr data => (inr (updated data), later w 1 [rd])
    | inl _ =>
        match answer w 1 dt r with
        | inr data => (inr (updated data), later w 2 [rd; Sleep 1; rd])
        | inl _ =>
            match answer w 2 dt r with
            | inr data =>
                (inr (updated data), later w 3 [rd; Sleep 1; rd; Sleep 2; rd])
            | inl _ =>
                (inr state, later w 3 [rd; Sleep 1; rd; Sleep 2; rd; Sleep 4])
            end
        end
    end ∧
  returns (retry dt r state (seqZ 0 3) w).1 ∧
  (calls (self w) + 1 ≤ calls (self (retry dt r state (seqZ 0 3) w).2)
   ≤ calls (self w) + 3)%nat.
Proof.
  intros rd updated. split; [apply retry_cases|].
  destruct (retry_calls dt r state w) as [Hcalls Hret]. by split.
Qed.

Lemma range_loop_calls dt l : ∀ state w,
  (calls (self w) + length l ≤ calls (self (range_loop dt state l w).2)
   ≤ calls (self w) + 3 * length l)%nat ∧
  returns (range_loop dt state l w).1 ∧
  io_step quiet w (range_loop dt state l w).2.
Proof.
  unfold range_loop.
  induction l as [|r l IH]; intros state w; cbn [for_io].
  - simpl. split; [lia|]. split; [by eexists|apply io_step_refl].
  - rewrite io_bind_unfold.
    destruct (retry_calls dt r state w) as [Hc [state1 Hr]].
    pose proof (retry_steps dt r (seqZ 0 3) state w) as Hs.
    destruct (retry dt r state (seqZ 0 3) w) as [[e|state'] w1]; simpl in *; [done|].
    destruct (IH state' w1) as (Hc' & Hr' & Hs'). split; [lia|]. split; [done|].
    by eapply io_step_trans.
Qed.

Lemma space_loop_calls dt state w :
  (calls (self w) + length (at_type (_REQUESTS (self w)) dt)
   ≤ calls (self (space_loop state dt w).2)
   ≤ calls (self w) + 3 * length (at_type (_REQUESTS (self w)) dt))%nat ∧
  returns (space_loop state dt w).1 ∧
  io_step quiet w (space_loop state dt w).2.
Proof.
  unfold space_loop. rewrite io_bind_unfold. unfold get_self.
  apply range_loop_calls.
Qed.

Lemma read_ranges_loops :
  read_ranges
  = (state ← space_loop (ByType [] []) Coil;
     state ← space_loop state Register;
     mret state).
Proof. reflexivity. Qed.

Lemma read_ranges_calls w :
  (calls (self w)
   + (length (at_type (_REQUESTS (self w)) Coil)
      + length (at_type (_REQUESTS (self w)) Register))
   ≤ calls (self (read_ranges w).2)
   ≤ calls (self w)
     + 3 * (length (at_type (_REQUESTS (self w)) Coil)
            + length (at_type (_REQUESTS (self w)) Register)))%nat.
Proof.
  rewrite read_ranges_loops, io_bind_unfold.
  destruct (space_loop_calls Coil (ByType [] []) w) as (Hc1 & [s1 Hr1] & Hs1).
  destruct (space_loop (ByType [] []) Coil w) as [[e|state1] w1]; simpl in *; [done|].
  destruct (io_step_inv _ _ _ Hs1) as (_ & _ & Hreq & _).
  rewrite io_bind_unfold.
  destruct (space_loop_calls Register state1 w1) as (Hc2 & [s2 Hr2] & _).
  destruct (space_loop state1 Register w1) as [[e|state2] w2]; simpl in *; [done|].
  rewrite Hreq in Hc2. lia.
Qed.

(** X19. A poll of a resolved session makes one request at least and
    three at most for each range of its two request lists, and none for
    the model: with [n] ranges, the number of requests of [get] lies
    between [n] and [3 n], whatever the heat pump answers; and none of the
    events that the poll adds to the trace is a read of the model range, so
    the number of model reads is what it was. *)
Theorem get_request_bounds (D H : mapping) (w : world) :
  is_Some (_model_name (self w)) →
  (calls (self w)
   + (length (at_type (_REQUESTS (self w)) Coil)
      + length (at_type (_REQUESTS (self w)) Register))
   ≤ calls (self (get D H w).2)
   ≤ calls (self w)
     + 3 * (length (at_type (_REQUESTS (self w)) Coil)
            + length (at_type (_REQUESTS (self w)) Register)))%nat ∧
  (∃ t, trace (self (get D H w).2) = trace (self w) ++ t ∧
        Forall (λ e, is_model_read e = false) t) ∧
  model_reads (trace (self (get D H w).2)) = model_reads (trace (self w)).
Proof.
  intros Hres. split; [|split].
  - destruct Hres as [name Hname]. rewrite get_spec, Hname.
    pose proof (read_ranges_calls w) as Hcalls.
    unfold read_and_decode. rewrite io_bind_unfold.
    destruct (read_ranges w) as [[e|state] w1]; [done|].
    rewrite io_bind_unfold. unfold get_self. rewrite io_bind_unfold. unfold lift.
    by destruct (decode _ state).
  - destruct (io_step_inv _ _ _ (get_resolved_step D H w Hres))
      as (_ & _ & _ & _ & _ & t & Ht & Hquiet).
    by exists t.
  - destruct (io_step_inv _ _ _ (get_resolved_step D H w Hres))
      as (_ & _ & _ & _ & _ & t & -> & Hquiet).
    rewrite model_reads_app, (model_reads_quiet t Hquiet). lia.
Qed.

Lemma get_request_bounds_witness :
  (0 + (1 + 1)
   ≤ calls (self (get domestic_catalog hp_catalog
                    (World (Api domestic_catalog (_build_requests domestic_catalog)
                              (Some "000000") register_busy_host 0 [])
                       domestic_catalog)).2)
   ≤ 0 + 3 * (1 + 1))%nat ∧
  model_reads (trace (self (get domestic_catalog hp_catalog
                    (World (Api domestic_catalog (_build_requests domestic_catalog)
                              (Some "000000") register_busy_host 0 [])
                       domestic_catalog)).2)) = 0%nat.
Proof.
  destruct (get_request_bounds domestic_catalog hp_catalog
           (World (Api domestic_catalog (_build_requests domestic_catalog)
                     (Some "000000") register_busy_host 0 [])
              domestic_catalog)) as (Hcalls & _ & Hreads).
  - by eexists.
  - split; [exact Hcalls|exact Hreads].
Defined.


(** ** A poll without failures *)

Lemma range_loop_smooth dt l : ∀ state w,
  (∀ j r, r ∈ l → returns (answer w j dt r)) →
  (range_loop dt state l w).2 = later w (length l) (read_event dt <$> l).
Proof.
  unfold range_loop.
  induction l as [|r l IH]; intros state w Hok; cbn [for_io].
  - unfold later. simpl. rewrite Nat.add_0_r, app_nil_r, with_io_id. by destruct w.
  - rewrite io_bind_unfold.
    pose proof (retry_cases dt r state w) as Hret. cbv zeta in Hret. rewrite Hret.
    destruct (Hok 0%nat r) as [data ->]; [by left|].
    rewrite IH.
    + rewrite later_later. done.
    + intros j r' Hr'. rewrite answer_later. apply Hok. by right.
Qed.

Lemma space_loop_smooth dt state w :
  (∀ j r, r ∈ at_type (_REQUESTS (self w)) dt → returns (answer w j dt r)) →
  (space_loop state dt w).2
  = later w (length (at_type (_REQUESTS (self w)) dt))
      (read_event dt <$> at_type (_REQUESTS (self w)) dt).
Proof.
  intros Hok. unfold space_loop. rewrite io_bind_unfold. unfold get_self.
  by apply range_loop_smooth.
Qed.

(** X20. When every request of a poll is answered with enough values,
    [read_ranges] makes exactly one request for each range, those of the
    coils first and then those of the registers, each list in its order,
    and it never sleeps. *)
Theorem read_ranges_smooth (w : world) :
  (∀ j dt r, r ∈ at_type (_REQUESTS (self w)) dt → returns (answer w j dt r)) →
  (read_ranges w).2
  = later w (length (at_type (_REQUESTS (self w)) Coil)
             + length (at_type (_REQUESTS (self w)) Register))
      ((read_event Coil <$> at_type (_REQUESTS (self w)) Coil)
       ++ (read_event Register <$> at_type (_REQUESTS (self w)) Register)).
Proof.
  intros Hok. rewrite read_ranges_loops, io_bind_unfold.
  pose proof (space_loop_smooth Coil (ByType [] []) w (λ j r, Hok j Coil r)) as H1.
  destruct (space_loop_calls Coil (ByType [] []) w) as (_ & [s1 Hr1] & _).
  destruct (space_loop (ByType [] []) Coil w) as [[e|state1] w1]; simpl in *; [done|].
  subst w1. rewrite io_bind_unfold.
  pose proof (space_loop_smooth Register state1
                (later w (length (on_Coil (_REQUESTS (self w))))
                   (read_event Coil <$> on_Coil (_REQUESTS (self w))))) as H2.
  destruct (space_loop_calls Register state1
              (later w (length (on_Coil (_REQUESTS (self w))))
                 (read_event Coil <$> on_Coil (_REQUESTS (self w)))))
    as (_ & [s2 Hr2] & _).
  destruct (space_loop state1 Register _) as [[e|state2] w2]; simpl in *; [done|].
  rewrite H2.
  - by rewrite later_later.
  - intros j r Hr. rewrite answer_later. by apply (Hok _ Register).
Qed.

Lemma read_ranges_smooth_witness :
  (read_ranges
     (World (Api hp_catalog (_build_requests hp_catalog) (Some "EATM00") hp_host 0 [])
        hp_catalog)).2
  = later
      (World (Api hp_catalog (_build_requests hp_catalog) (Some "EATM00") hp_host 0 [])
         hp_catalog)
      (0 + 1) ([] ++ [read_event Register (Request 300 1)]).
Proof.
  apply (read_ranges_smooth
           (World (Api hp_catalog (_build_requests hp_catalog) (Some "EATM00")
                     hp_host 0 [])
              hp_catalog)).
  intros j [] r Hr; vm_compute in Hr.
  - apply list_elem_of_singleton in Hr as ->. by eexists.
  - by apply elem_of_nil in Hr.
Defined.
